(** * Verification of the Twitter/X link rewriting Discord bot

    Shallow embedding of [main.go] (and of the sibling revisions of the same
    file) together with the properties of the link rewriter, of the link
    detection gate, of the preview classifier and of the message handler.

    Go strings are byte sequences: they are modelled as lists of [ascii]
    (one [ascii] per byte).  Every character class of the two patterns of
    the program is either a set of ASCII bytes or the complement of such a
    set, and every literal is ASCII, so matching byte by byte and matching
    rune by rune (as Go's [regexp] does on UTF-8 input) delimit the same
    spans: a multi-byte rune only has bytes above 127, which a complemented
    class accepts one after the other and which no literal accepts. *)

From Stdlib Require Import Ascii String Bool Arith ZArith Lia List.
Import ListNotations.

Open Scope list_scope.

#[global] Arguments Ascii.eqb : simpl never.
#[global] Arguments N_of_ascii : simpl never.

(** ** Strings *)

Definition gostring := list ascii.

Definition str (s : string) : gostring := list_ascii_of_string s.

Module strings.

(** [strings.HasPrefix(s, prefix)] *)
Fixpoint HasPrefix (s prefix : gostring) {struct prefix} : bool :=
  match prefix, s with
  | [], _ => true
  | p :: prefix', c :: s' => Ascii.eqb p c && HasPrefix s' prefix'
  | _ :: _, [] => false
  end.

(** [strings.HasSuffix(s, suffix)] *)
Definition HasSuffix (s suffix : gostring) : bool :=
  HasPrefix (rev s) (rev suffix).

(** [strings.TrimPrefix(s, prefix)]: [s] without the leading [prefix], or
    [s] itself when it does not start with [prefix]. *)
Definition TrimPrefix (s prefix : gostring) : gostring :=
  if HasPrefix s prefix then skipn (length prefix) s else s.

(** [strings.Index(s, substr)]: the index of the first occurrence of
    [substr] in [s], or -1. *)
Fixpoint Index (s substr : gostring) : Z :=
  if HasPrefix s substr then 0%Z
  else match s with
       | [] => (-1)%Z
       | _ :: s' =>
           let i := Index s' substr in
           if (i <? 0)%Z then (-1)%Z else (i + 1)%Z
       end.

(** [strings.Contains(s, substr)] *)
Definition Contains (s substr : gostring) : bool :=
  (0 <=? Index s substr)%Z.

(** [strings.Replace(s, old, new, n)] for a non-empty [old] and [n >= 0]:
    the first [n] occurrences of [old], from the left and not overlapping,
    are replaced by [new]. *)
Fixpoint Replace (s old new : gostring) (n : nat) : gostring :=
  match n with
  | O => s
  | S n' =>
      let i := Index s old in
      if (i <? 0)%Z then s
      else firstn (Z.to_nat i) s ++ new
           ++ Replace (skipn (Z.to_nat i + length old) s) old new n'
  end.

End strings.

(** ** The fragment of [regexp] the program uses

    Go's [regexp] finds the leftmost match and, among the matches that start
    there, the one a backtracking search would find first.  The matcher
    below is that backtracking search, in continuation-passing style: the
    continuation is the rest of the pattern, and the first alternative whose
    continuation succeeds wins.  Repetition is only needed over character
    classes. *)

Module regexp.

Inductive cset : Type :=
| One (c : ascii)                 (* a single character *)
| Range (lo hi : ascii)           (* [lo-hi] *)
| Space                           (* \s, that is [\t\n\f\r ] *)
| Digit                           (* \d, that is [0-9] *)
| Union (a b : cset)
| Neg (a : cset).                 (* [^...] *)

Fixpoint mem (cs : cset) (c : ascii) : bool :=
  match cs with
  | One d => Ascii.eqb d c
  | Range lo hi => (N_of_ascii lo <=? N_of_ascii c)%N && (N_of_ascii c <=? N_of_ascii hi)%N
  | Space => Ascii.eqb c "009" || Ascii.eqb c "010" || Ascii.eqb c "012"
             || Ascii.eqb c "013" || Ascii.eqb c " "
  | Digit => (48 <=? N_of_ascii c)%N && (N_of_ascii c <=? 57)%N
  | Union a b => mem a c || mem b c
  | Neg a => negb (mem a c)
  end.

Inductive regex : Type :=
| Eps
| Chr (c : ascii)
| Cls (cs : cset)
| Cat (r1 r2 : regex)
| Alt (r1 r2 : regex)             (* r1|r2, r1 preferred *)
| Opt (r : regex)                 (* r?, greedy *)
| Star (cs : cset)                (* [..]*, greedy *)
| Plus (cs : cset).               (* [..]+, greedy *)

(** A literal string. *)
Fixpoint lit (l : gostring) : regex :=
  match l with
  | [] => Eps
  | c :: l' => Cat (Chr c) (lit l')
  end.

(** A sequence of sub-patterns. *)
Fixpoint seq (rs : list regex) : regex :=
  match rs with
  | [] => Eps
  | r :: rs' => Cat r (seq rs')
  end.

Definition orElse {A} (x y : option A) : option A :=
  match x with Some _ => x | None => y end.

(** Greedy repetition of a class: longest run first, then shorter ones. *)
Fixpoint star (p : ascii -> bool) (s : gostring)
         (k : gostring -> option gostring) : option gostring :=
  match s with
  | c :: s' => if p c then orElse (star p s' k) (k s) else k s
  | [] => k []
  end.

(** [rmatch r s k]: match [r] at the start of [s], then run the rest of the
    pattern [k] on what is left; the result is the input left after the
    whole match. *)
Fixpoint rmatch (r : regex) (s : gostring)
         (k : gostring -> option gostring) : option gostring :=
  match r with
  | Eps => k s
  | Chr c =>
      match s with
      | d :: s' => if Ascii.eqb c d then k s' else None
      | [] => None
      end
  | Cls cs =>
      match s with
      | d :: s' => if mem cs d then k s' else None
      | [] => None
      end
  | Cat r1 r2 => rmatch r1 s (fun s' => rmatch r2 s' k)
  | Alt r1 r2 => orElse (rmatch r1 s k) (rmatch r2 s k)
  | Opt r1 => orElse (rmatch r1 s k) (k s)
  | Star cs => star (mem cs) s k
  | Plus cs =>
      match s with
      | d :: s' => if mem cs d then star (mem cs) s' k else None
      | [] => None
      end
  end.

(** The match that starts at the first byte of [s], if any: the matched
    text and the input after it. *)
Definition matchAt (re : regex) (s : gostring) : option (gostring * gostring) :=
  match rmatch re s Some with
  | Some rest => Some (firstn (length s - length rest) s, rest)
  | None => None
  end.

(** [regexp.MatchString(pattern, s)]: is there a match anywhere in [s]? *)
Fixpoint MatchString (re : regex) (s : gostring) : bool :=
  match matchAt re s with
  | Some _ => true
  | None => match s with
            | [] => false
            | _ :: s' => MatchString re s'
            end
  end.

(** The loop of [Regexp.ReplaceAllStringFunc]: copy the input up to the
    leftmost match, append [repl] of the match, go on after the match.
    The patterns of this program never match the empty string (lemma
    [pattern_match_nonempty] below), so the library's extra rule for empty
    matches is left out: an empty match is stepped over. *)
Fixpoint replaceLoop (fuel : nat) (re : regex) (repl : gostring -> gostring)
         (s : gostring) : gostring :=
  match fuel with
  | O => s
  | S fuel' =>
      match s with
      | [] => []
      | c :: s' =>
          match matchAt re s with
          | Some ((_ :: _) as m, rest) => repl m ++ replaceLoop fuel' re repl rest
          | _ => c :: replaceLoop fuel' re repl s'
          end
      end
  end.

Definition ReplaceAllStringFunc (re : regex) (s : gostring)
           (repl : gostring -> gostring) : gostring :=
  replaceLoop (length s) re repl s.

(** The loop of [Regexp.FindAllString(s, -1)], for patterns without empty
    matches: the leftmost match, then the matches of what follows it. *)
Fixpoint findLoop (fuel : nat) (re : regex) (s : gostring) : list gostring :=
  match fuel with
  | O => []
  | S fuel' =>
      match s with
      | [] => []
      | _ :: s' =>
          match matchAt re s with
          | Some ((_ :: _) as m, rest) => m :: findLoop fuel' re rest
          | _ => findLoop fuel' re s'
          end
      end
  end.

Definition FindAllString (re : regex) (s : gostring) : list gostring :=
  findLoop (length s) re s.

End regexp.

Import regexp.

(** ** The link rewriter ([main.go], [modifyTwitterLinks], [modifySingleLink]) *)

(** [[^/]] *)
Definition notSlash : cset := Neg (One "/").
(** [[^\s<>]] *)
Definition notSpaceAngle : cset := Neg (Union Space (Union (One "<") (One ">"))).
(** [[^<\s]] *)
Definition notLtSpace : cset := Neg (Union (One "<") Space).
(** [[a-zA-Z0-9_]] *)
Definition wordChar : cset :=
  Union (Range "a" "z") (Union (Range "A" "Z") (Union (Range "0" "9") (One "_"))).

(** The pattern of [modifyTwitterLinks], one line per piece of the source
    pattern. *)
Definition modifyPattern : regex :=
  seq [ Opt (Chr "<");                                      (* (<)? *)
        lit (str "http"); Opt (Chr "s"); lit (str "://");   (* https?:// *)
        Opt (lit (str "www."));                             (* (www\.)? *)
        Alt (lit (str "twitter.com")) (lit (str "x.com"));  (* (twitter\.com|x\.com) *)
        Chr "/"; Plus notSlash;                             (* /[^/]+ *)
        lit (str "/status/"); Plus Digit;                   (* /status/\d+ *)
        Opt (Cat (Chr "?") (Star notSpaceAngle));           (* optional group: \? then [^\s<>] repeated *)
        Star notLtSpace;                                    (* group: [^<\s] repeated *)
        Opt (Chr ">") ].                                    (* >? *)

(** [https?:\/\/(www\.)?(twitter\.com|x\.com)\/[a-zA-Z0-9_]+\/status\/[0-9]+] *)
Definition containsPattern : regex :=
  seq [ lit (str "http"); Opt (Chr "s"); lit (str "://");
        Opt (lit (str "www."));
        Alt (lit (str "twitter.com")) (lit (str "x.com"));
        Chr "/"; Plus wordChar;
        lit (str "/status/"); Plus (Range "0" "9") ].

Definition modifySingleLink (link : gostring) : gostring :=
  (* Remove query parameters *)
  let link :=
    let idx := strings.Index link (str "?") in
    if negb (idx =? -1)%Z then firstn (Z.to_nat idx) link else link in
  (* Strip protocol and www subdomain *)
  let link := strings.TrimPrefix link (str "http://") in
  let link := strings.TrimPrefix link (str "https://") in
  let link := strings.TrimPrefix link (str "www.") in
  (* Replace domain *)
  if strings.HasPrefix link (str "twitter.com") then
    str "https://fxtwitter.com" ++ strings.TrimPrefix link (str "twitter.com")
  else if strings.HasPrefix link (str "x.com") then
    str "https://fixupx.com" ++ strings.TrimPrefix link (str "x.com")
  else link.

Definition modifyTwitterLinks (content : gostring) : gostring :=
  ReplaceAllStringFunc modifyPattern content (fun m =>
    if strings.HasPrefix m (str "<") && strings.HasSuffix m (str ">")
    then m (* Preserve links in angle brackets *)
    else modifySingleLink m).

Definition containsTwitterLink (content : gostring) : bool :=
  MatchString containsPattern content.

(** [https?://(www\.)?(twitter\.com|x\.com)/[^/]+/status/\d+]: the pattern of
    [extractTwitterLinks] and, with capture groups that play no part, of the
    first revision of [modifyTwitterLinks]. *)
Definition linkPattern : regex :=
  seq [ lit (str "http"); Opt (Chr "s"); lit (str "://");
        Opt (lit (str "www."));
        Alt (lit (str "twitter.com")) (lit (str "x.com"));
        Chr "/"; Plus notSlash;
        lit (str "/status/"); Plus Digit ].

Definition extractTwitterLinks (content : gostring) : list gostring :=
  FindAllString linkPattern content.

(** *** The first revision of the rewriter *)

Module First.

Definition modifyTwitterLinks (content : gostring) : gostring :=
  ReplaceAllStringFunc linkPattern content (fun m =>
    if strings.Contains m (str "twitter.com") then
      strings.Replace m (str "twitter.com") (str "fxtwitter.com") 1
    else if strings.Contains m (str "x.com") then
      strings.Replace m (str "x.com") (str "fixupx.com") 1
    else m).

End First.

(** ** The data the handler receives ([discordgo]) *)

Module discordgo.

Record MessageEmbedImage : Type := { Image_URL : gostring }.

Record MessageEmbedThumbnail : Type := { Thumbnail_URL : gostring }.

(** [Image] and [Thumbnail] are pointers in Go: [None] is [nil]. *)
Record MessageEmbed : Type := {
  Embed_URL : gostring;
  Embed_Type : gostring;
  Embed_Title : gostring;
  Embed_Description : gostring;
  Embed_Image : option MessageEmbedImage;
  Embed_Thumbnail : option MessageEmbedThumbnail
}.

Record MessageAttachment : Type := {
  Attachment_URL : gostring;
  Attachment_Filename : gostring;
  Attachment_Size : Z
}.

Record User : Type := { User_ID : gostring; User_Username : gostring }.

Record MessageCreate : Type := {
  Message_ID : gostring;
  Message_Author : User;
  Message_ChannelID : gostring;
  Message_Content : gostring;
  Message_Embeds : list MessageEmbed;
  Message_Attachments : list MessageAttachment
}.

End discordgo.

Import discordgo.

(** Equality of strings, Go's [==]. *)
Fixpoint eqs (a b : gostring) : bool :=
  match a, b with
  | [], [] => true
  | c :: a', d :: b' => Ascii.eqb c d && eqs a' b'
  | _, _ => false
  end.

(** ** A reference parser for preview URLs

    The classifier calls [url.Parse] and [Hostname] of the Go standard
    library.  The classifier functions below take that pair as a parameter
    [hostname] ([None] when [url.Parse] returns an error) and their general
    properties hold for every parser.  The concrete parser of this module is
    used where a statement needs a closed input: it covers URLs of the shape
    [scheme://host[:port][/path][?query][#fragment]] and rejects, as
    [url.Parse] does, a URL with an ASCII control character. *)

Module url.

Definition isCTL (c : ascii) : bool :=
  (N_of_ascii c <? 32)%N || (N_of_ascii c =? 127)%N.

(** The text after the first [://], if any. *)
Fixpoint afterScheme (s : gostring) : option gostring :=
  if strings.HasPrefix s (str "://") then Some (skipn 3 s)
  else match s with
       | [] => None
       | _ :: s' => afterScheme s'
       end.

Fixpoint takeUntil (stop : ascii -> bool) (s : gostring) : gostring :=
  match s with
  | c :: s' => if stop c then [] else c :: takeUntil stop s'
  | [] => []
  end.

Definition endsAuthority (c : ascii) : bool :=
  Ascii.eqb c "/" || Ascii.eqb c "?" || Ascii.eqb c "#".

Definition Hostname (raw : gostring) : option gostring :=
  if existsb isCTL raw then None
  else match afterScheme raw with
       | Some rest =>
           Some (takeUntil (fun c => Ascii.eqb c ":") (takeUntil endsAuthority rest))
       | None => Some []
       end.

End url.

(** ** What the handler does

    The handler's effects are the messages it sends and the lines it logs,
    in order.  A log line is recorded by its format string; the formatted
    arguments are not modelled. *)

Inductive event : Type :=
| Send (channel content : gostring)
| Log (format : string).

(** [_, err := s.ChannelMessageSend(channel, content); if err != nil { log.Println(...) }];
    [sendFails] tells whether the call returns an error. *)
Definition sendOrLog (sendFails : gostring -> gostring -> bool)
           (channel content : gostring) (onError : string) : list event :=
  Send channel content :: (if sendFails channel content then [Log onError] else []).

(** [for _, cdn := range cdns { if strings.HasSuffix(host, cdn) { return true } }] *)
Fixpoint anySuffix (host : gostring) (cdns : list gostring) : bool :=
  match cdns with
  | cdn :: cdns' => if strings.HasSuffix host cdn then true else anySuffix host cdns'
  | [] => false
  end.

(** A block of a function that may return from its middle yields [Some b]
    when it returns [b] and [None] when control falls through to what
    follows. *)
Definition orFallThrough (block : option bool) (next : bool) : bool :=
  match block with Some b => b | None => next end.

(** *** [main.go] *)

Module Main.
Section WithLibraries.

(** [url.Parse] followed by [Hostname]; [None] is a parse error. *)
Variable hostname : gostring -> option gostring.
(** Whether [ChannelMessageSend] returns an error for this message. *)
Variable sendFails : gostring -> gostring -> bool.

Definition twitterCDNs : list gostring :=
  [ str "pbs.twimg.com"; str "video.twimg.com"; str "abs.twimg.com"; str "ton.twimg.com" ].

(** One of the three blocks of [isTwitterEmbed]: parse the URL and run the
    loop over the CDN list. *)
Definition checkURL (u : gostring) : option bool :=
  if negb (eqs u [])
  then match hostname u with
       | Some host => if anySuffix host twitterCDNs then Some true else None
       | None => None
       end
  else None.

Definition isTwitterEmbed (embed : MessageEmbed) : bool :=
  (* Check embed URL *)
  orFallThrough (checkURL (Embed_URL embed))
  (* Check image URL *)
  (orFallThrough (match Embed_Image embed with
                  | Some img => checkURL (Image_URL img)
                  | None => None
                  end)
  (* Check thumbnail URL *)
  (orFallThrough (match Embed_Thumbnail embed with
                  | Some th => checkURL (Thumbnail_URL th)
                  | None => None
                  end)
   false)).

Fixpoint hasValidTwitterEmbed (embeds : list MessageEmbed) : bool :=
  match embeds with
  | embed :: embeds' => if isTwitterEmbed embed then true else hasValidTwitterEmbed embeds'
  | [] => false
  end.

Definition logEmbedDetails (embed : MessageEmbed) : list event :=
  [ Log "Embed %d details:\n"; Log "  Type: %s\n"; Log "  Title: %s\n";
    Log "  Description: %s\n"; Log "  URL: %s\n" ]
  ++ (match Embed_Image embed with Some _ => [Log "  Image URL: %s\n"] | None => [] end)
  ++ (match Embed_Thumbnail embed with Some _ => [Log "  Thumbnail URL: %s\n"] | None => [] end)
  ++ [ Log "  Is Twitter Embed: %v\n" ].

Definition logTwitterMessage (m : MessageCreate) : list event :=
  [ Log "Twitter link detected in message ID: %s\n"; Log "Author: %s (ID: %s)\n";
    Log "Channel ID: %s\n"; Log "Content: %s\n"; Log "Timestamp: %s\n";
    Log "Number of embeds: %d\n" ]
  ++ flat_map logEmbedDetails (Message_Embeds m).

Definition logRawEmbeds (embeds : list MessageEmbed) : list event :=
  Log "Raw Embed Array: %+v\n" :: map (fun _ => Log "Embed %d raw data: %+v\n") embeds.

(** [self] is [s.State.User.ID], the bot's own user. *)
Definition messageCreate (self : gostring) (m : MessageCreate) : list event :=
  (* Ignore messages from the bot itself *)
  if eqs (User_ID (Message_Author m)) self then []
  (* Respond to "hello" messages *)
  else if eqs (Message_Content m) (str "hello") then
    sendOrLog sendFails (Message_ChannelID m) (str "world!") "Error sending message:"
  (* Check for Twitter/X links *)
  else if containsTwitterLink (Message_Content m) then
    logRawEmbeds (Message_Embeds m)
    ++ logTwitterMessage m
    ++ (let hasValidEmbed := hasValidTwitterEmbed (Message_Embeds m) in
        Log "Has valid Twitter embed: %v\n"
        :: (if negb hasValidEmbed then
              Log "No valid Twitter embed found, modifying Twitter link"
              :: (let modifiedContent := modifyTwitterLinks (Message_Content m) in
                  if negb (eqs modifiedContent (Message_Content m)) then
                    sendOrLog sendFails (Message_ChannelID m) modifiedContent
                              "Error sending modified message:"
                  else [])
            else [Log "Valid Twitter embed found, not modifying message"]))
  else [].

End WithLibraries.
End Main.

(** *** The revisions without the gate

    The handler rewrites every message and does not return after answering
    [hello].  [rewrite] is the revision's [modifyTwitterLinks]. *)

Module Ungated.
Section WithLibraries.

Variable sendFails : gostring -> gostring -> bool.
Variable rewrite : gostring -> gostring.

Definition messageCreate (self : gostring) (m : MessageCreate) : list event :=
  (* Ignore messages from the bot itself *)
  if eqs (User_ID (Message_Author m)) self then []
  else
    (* Respond to "hello" messages *)
    (if eqs (Message_Content m) (str "hello") then
       sendOrLog sendFails (Message_ChannelID m) (str "world!") "Error sending message:"
     else [])
    (* Check for Twitter/X links and modify them *)
    ++ (let modifiedContent := rewrite (Message_Content m) in
        if negb (eqs modifiedContent (Message_Content m)) then
          sendOrLog sendFails (Message_ChannelID m) modifiedContent
                    "Error sending modified message:"
        else []).

End WithLibraries.
End Ungated.

(** *** The revision with [hasValidTwitterPreview] (embeds and attachments) *)

Module Preview.
Section WithLibraries.

Variable hostname : gostring -> option gostring.
Variable sendFails : gostring -> gostring -> bool.

Definition twitterCDNs : list gostring :=
  [ str "pbs.twimg.com"; str "video.twimg.com"; str "ton.twimg.com" ].

(** What follows a successful parse: the loop over the CDN list, then the
    test of [abs.twimg.com]. *)
Definition checkHost (host : gostring) : option bool :=
  if anySuffix host twitterCDNs then Some true
  else if strings.HasSuffix host (str "abs.twimg.com") then Some false
  else None.

Definition checkURL (u : gostring) : option bool :=
  if negb (eqs u [])
  then match hostname u with
       | Some host => checkHost host
       | None => None
       end
  else None.

Definition isWorkingTwitterEmbed (embed : MessageEmbed) : bool :=
  (* Check embed URL *)
  orFallThrough (checkURL (Embed_URL embed))
  (* Check image URL *)
  (orFallThrough (match Embed_Image embed with
                  | Some img => checkURL (Image_URL img)
                  | None => None
                  end)
  (* Check thumbnail URL *)
  (orFallThrough (match Embed_Thumbnail embed with
                  | Some th => checkURL (Thumbnail_URL th)
                  | None => None
                  end)
   false)).

Definition isWorkingTwitterAttachment (attachment : MessageAttachment) : bool :=
  match hostname (Attachment_URL attachment) with
  | Some host => orFallThrough (checkHost host) false
  | None => false
  end.

Fixpoint anyEmbed (embeds : list MessageEmbed) : bool :=
  match embeds with
  | embed :: embeds' => if isWorkingTwitterEmbed embed then true else anyEmbed embeds'
  | [] => false
  end.

Fixpoint anyAttachment (attachments : list MessageAttachment) : bool :=
  match attachments with
  | attachment :: attachments' =>
      if isWorkingTwitterAttachment attachment then true else anyAttachment attachments'
  | [] => false
  end.

Definition hasValidTwitterPreview (m : MessageCreate) : bool :=
  (* Check embeds *)
  if anyEmbed (Message_Embeds m) then true
  (* Check attachments *)
  else if anyAttachment (Message_Attachments m) then true
  else false.

Definition messageCreate (self : gostring) (m : MessageCreate) : list event :=
  if eqs (User_ID (Message_Author m)) self then []
  else if eqs (Message_Content m) (str "hello") then
    sendOrLog sendFails (Message_ChannelID m) (str "world!") "Error sending message:"
  else if containsTwitterLink (Message_Content m) then
    let hasValidPreview := hasValidTwitterPreview m in
    if negb hasValidPreview then
      let modifiedContent := modifyTwitterLinks (Message_Content m) in
      if negb (eqs modifiedContent (Message_Content m)) then
        sendOrLog sendFails (Message_ChannelID m) modifiedContent
                  "Error sending modified message:"
      else []
    else []
  else [].

End WithLibraries.
End Preview.

(** *** The revision whose thumbnail block knows the placeholder markers *)

Module Markers.
Section WithLibraries.

Variable hostname : gostring -> option gostring.

Definition twitterCDNs : list gostring :=
  [ str "pbs.twimg.com"; str "video.twimg.com"; str "ton.twimg.com" ].

Definition checkHost (host : gostring) : option bool :=
  if anySuffix host twitterCDNs then Some true
  else if strings.HasSuffix host (str "abs.twimg.com") then Some false
  else None.

Definition checkURL (u : gostring) : option bool :=
  if negb (eqs u [])
  then match hostname u with
       | Some host => checkHost host
       | None => None
       end
  else None.

Definition checkThumbnail (u : gostring) : option bool :=
  if negb (eqs u [])
  then match hostname u with
       | Some host =>
           (* Check for tweet_video_thumb or amplify_video_thumb in the thumbnail URL *)
           if strings.Contains u (str "tweet_video_thumb")
              || strings.Contains u (str "amplify_video_thumb")
           then Some false
           else checkHost host
       | None => None
       end
  else None.

Definition isWorkingTwitterEmbed (embed : MessageEmbed) : bool :=
  (* Check embed URL *)
  orFallThrough (checkURL (Embed_URL embed))
  (* Check image URL *)
  (orFallThrough (match Embed_Image embed with
                  | Some img => checkURL (Image_URL img)
                  | None => None
                  end)
  (* Check thumbnail URL *)
  (orFallThrough (match Embed_Thumbnail embed with
                  | Some th => checkThumbnail (Thumbnail_URL th)
                  | None => None
                  end)
   false)).

Definition isWorkingTwitterAttachment (attachment : MessageAttachment) : bool :=
  match hostname (Attachment_URL attachment) with
  | Some host => orFallThrough (checkHost host) false
  | None => false
  end.

Fixpoint anyEmbed (embeds : list MessageEmbed) : bool :=
  match embeds with
  | embed :: embeds' => if isWorkingTwitterEmbed embed then true else anyEmbed embeds'
  | [] => false
  end.

Fixpoint anyAttachment (attachments : list MessageAttachment) : bool :=
  match attachments with
  | attachment :: attachments' =>
      if isWorkingTwitterAttachment attachment then true else anyAttachment attachments'
  | [] => false
  end.

Definition hasValidTwitterPreview (m : MessageCreate) : bool :=
  if anyEmbed (Message_Embeds m) then true
  else if anyAttachment (Message_Attachments m) then true
  else false.

Variable sendFails : gostring -> gostring -> bool.

(** The lines logged for one embed and for one attachment. *)
Definition logEmbed (embed : MessageEmbed) : list event :=
  [ Log "Embed %d:\n"; Log "  Type: %s\n"; Log "  Title: %s\n";
    Log "  Description: %s\n" ]
  ++ (match Embed_Image embed with Some _ => [Log "  Image URL: %s\n"] | None => [] end)
  ++ (match Embed_Thumbnail embed with Some _ => [Log "  Thumbnail URL: %s\n"] | None => [] end)
  ++ [ Log "  Fields: %d\n" ].

Definition logAttachment (attachment : MessageAttachment) : list event :=
  [ Log "Attachment %d:\n"; Log "  Filename: %s\n"; Log "  URL: %s\n";
    Log "  Size: %d bytes\n" ].

Definition logTwitterMessage (m : MessageCreate) : list event :=
  let twitterLinks := extractTwitterLinks (Message_Content m) in
  flat_map (fun _ =>
    [ Log "Original Twitter Link: %s\n"; Log "Total Embeds in Message: %d\n" ]
    ++ flat_map logEmbed (Message_Embeds m)
    ++ [ Log "Total Attachments in Message: %d\n" ]
    ++ flat_map logAttachment (Message_Attachments m)) twitterLinks.

Definition messageCreate (self : gostring) (m : MessageCreate) : list event :=
  (* Ignore messages from the bot itself *)
  if eqs (User_ID (Message_Author m)) self then []
  (* Respond to "hello" messages *)
  else if eqs (Message_Content m) (str "hello") then
    sendOrLog sendFails (Message_ChannelID m) (str "world!") "Error sending message:"
  (* Check for Twitter/X links *)
  else if containsTwitterLink (Message_Content m) then
    (* Log detailed information about the message and its embeds *)
    logTwitterMessage m
    ++ (let hasValidPreview := hasValidTwitterPreview m in
        if negb hasValidPreview then
          let modifiedContent := modifyTwitterLinks (Message_Content m) in
          if negb (eqs modifiedContent (Message_Content m)) then
            sendOrLog sendFails (Message_ChannelID m) modifiedContent
                      "Error sending modified message:"
          else []
        else [])
  else [].

End WithLibraries.
End Markers.


(** ** Vocabulary of the statements *)

(** A status link is a scheme, an optional [www.], one of the two domains, a
    handle segment, [/status/] and an identifier; the mirror domains are the
    two constants of [modifySingleLink]. *)

Inductive scheme : Type := Http | Https.

Inductive domain : Type := Twitter | X.

Definition schemeStr (p : scheme) : gostring :=
  match p with Http => str "http://" | Https => str "https://" end.

Definition wwwStr (w : bool) : gostring := if w then str "www." else [].

Definition domainStr (d : domain) : gostring :=
  match d with Twitter => str "twitter.com" | X => str "x.com" end.

Definition mirror (d : domain) : gostring :=
  match d with Twitter => str "fxtwitter.com" | X => str "fixupx.com" end.

Definition linkPrefix (p : scheme) (w : bool) (d : domain) : gostring :=
  schemeStr p ++ wwwStr w ++ domainStr d ++ str "/".

Definition statusLink (p : scheme) (w : bool) (d : domain) (handle id : gostring)
  : gostring :=
  linkPrefix p w d ++ handle ++ str "/status/" ++ id.

Definition rewrittenLink (d : domain) (handle id : gostring) : gostring :=
  str "https://" ++ mirror d ++ str "/" ++ handle ++ str "/status/" ++ id.

(** White space as the patterns understand it ([\s]), and decimal digits
    ([\d]). *)
Definition isSpace (c : ascii) : bool := mem Space c.

Definition isDigit (c : ascii) : bool := mem Digit c.

(** Every character of [s] satisfies [p]. *)
Definition all (p : ascii -> bool) (s : gostring) : Prop :=
  Forall (fun c => p c = true) s.

(** [s] is empty or starts with a character outside [p]: a run of [p] stops
    in front of [s]. *)
Definition stops (p : ascii -> bool) (s : gostring) : Prop :=
  match s with
  | [] => True
  | c :: _ => p c = false
  end.

(** A handle is a non-empty run of characters other than the slash, an
    identifier a non-empty run of decimal digits. *)
Definition isHandle (h : gostring) : Prop := h <> [] /\ all (mem notSlash) h.

Definition isId (id : gostring) : Prop := id <> [] /\ all isDigit id.

(** The text contains a qualifying status link. *)
Definition containsStatusLink (text : gostring) : Prop :=
  exists a p w d h id b,
    text = a ++ statusLink p w d h id ++ b /\ isHandle h /\ isId id.

(** The link starts the text or follows white space. *)
Definition linkStart (pre : gostring) : Prop :=
  pre = [] \/ exists pre' c, pre = pre' ++ [c] /\ isSpace c = true.

Definition noQuestion (s : gostring) : Prop := ~ In "?"%char s.

(** A query is absent, or a [?] followed by anything. *)
Definition isQuery (q : gostring) : Prop :=
  q = [] \/ exists q', q = "?"%char :: q'.

(** A query as it stands in a text: nothing, or [?] and a run of characters
    other than white space and [<]. *)
Definition queryText (q : gostring) : Prop :=
  q = [] \/ exists q', q = "?"%char :: q' /\ all (mem notLtSpace) q'.





(** The URLs of an embed, in the order the classifier looks at them. *)
Definition embedURLs (embed : MessageEmbed) : list gostring :=
  Embed_URL embed
  :: (match Embed_Image embed with Some img => [Image_URL img] | None => [] end)
  ++ (match Embed_Thumbnail embed with Some th => [Thumbnail_URL th] | None => [] end).

(** The URL is not empty, it parses, and its host name ends with one of the
    suffixes [cdns]. *)
Definition servedBy (hostname : gostring -> option gostring) (cdns : list gostring)
           (u : gostring) : Prop :=
  u <> [] /\ exists host cdn,
    hostname u = Some host /\ In cdn cdns /\ strings.HasSuffix host cdn = true.

(** The messages sent, in order. *)
Fixpoint sends (trace : list event) : list (gostring * gostring) :=
  match trace with
  | Send channel content :: trace' => (channel, content) :: sends trace'
  | Log _ :: trace' => sends trace'
  | [] => []
  end.

(** Concrete messages for the closed statements. *)

Definition embedWith (u : string) (image thumbnail : option string) : MessageEmbed :=
  {| Embed_URL := str u; Embed_Type := str "rich"; Embed_Title := []; Embed_Description := [];
     Embed_Image := option_map (fun i => {| Image_URL := str i |}) image;
     Embed_Thumbnail := option_map (fun t => {| Thumbnail_URL := str t |}) thumbnail |}.

Definition messageWith (author content : string) (embeds : list MessageEmbed)
           (attachments : list MessageAttachment) : MessageCreate :=
  {| Message_ID := str "1"; Message_Author := {| User_ID := str author; User_Username := str author |};
     Message_ChannelID := str "general"; Message_Content := str content;
     Message_Embeds := embeds; Message_Attachments := attachments |}.

(** A session in which [ChannelMessageSend] never returns an error. *)
Definition neverFails : gostring -> gostring -> bool := fun _ _ => false.

(** The cases of the repository's test [TestModifyTwitterLinks]: input and
    expected output. *)
Definition testCases : list (string * string) :=
  [ ("Check out https://twitter.com/user/status/123456",
     "Check out https://fxtwitter.com/user/status/123456");
    ("Look at https://x.com/user/status/789012",
     "Look at https://fixupx.com/user/status/789012");
    ("Twitter: https://twitter.com/user1/status/123 and X: https://x.com/user2/status/456",
     "Twitter: https://fxtwitter.com/user1/status/123 and X: https://fixupx.com/user2/status/456");
    ("Just a regular message", "Just a regular message");
    ("Don't modify this: <https://twitter.com/user/status/123456>",
     "Don't modify this: <https://twitter.com/user/status/123456>");
    ("Modify this: https://twitter.com/user1/status/123 but not this: <https://x.com/user2/status/456>",
     "Modify this: https://fxtwitter.com/user1/status/123 but not this: <https://x.com/user2/status/456>");
    ("Check out https://www.twitter.com/user/status/123456",
     "Check out https://fxtwitter.com/user/status/123456");
    ("Look at https://www.x.com/user/status/789012",
     "Look at https://fixupx.com/user/status/789012");
    ("https://twitter.com/user1/status/123 is interesting and so is https://x.com/user2/status/456",
     "https://fxtwitter.com/user1/status/123 is interesting and so is https://fixupx.com/user2/status/456");
    ("Old link http://twitter.com/user/status/123456 and http://x.com/user/status/789012",
     "Old link https://fxtwitter.com/user/status/123456 and https://fixupx.com/user/status/789012");
    ("This <link> https://twitter.com/user/status/123456 and this <one> https://x.com/user/status/789012",
     "This <link> https://fxtwitter.com/user/status/123456 and this <one> https://fixupx.com/user/status/789012");
    ("Check https://www.twitter.com/user1/status/123 and https://x.com/user2/status/456",
     "Check https://fxtwitter.com/user1/status/123 and https://fixupx.com/user2/status/456");
    ("https://x.com/Nefarious_Foxx/status/1827343634091409773?t=vz1CxWwkTUyboeZhODW_yw&s=19",
     "https://fixupx.com/Nefarious_Foxx/status/1827343634091409773");
    ("https://twitter.com/SinSquaredArt/status/1825669070588354674?t=NzSvTTYTI773iZgSnwTHpQ&s=19",
     "https://fxtwitter.com/SinSquaredArt/status/1825669070588354674");
    ("https://www.x.com/CandySharkie/status/1826132464814682482",
     "https://fixupx.com/CandySharkie/status/1826132464814682482");
    ("https://www.twitter.com/CandySharkie/status/1826132464814682482",
     "https://fxtwitter.com/CandySharkie/status/1826132464814682482") ]%string.

(** ** Vocabulary of the proofs *)

(** *** One-pass scanners

    Each optional or alternative piece of the patterns is decided by the
    next byte of the input, and each repetition is followed by something
    that it cannot itself consume (or that always succeeds): the backtracking
    search never has a second way to succeed.  Its result is computed by the
    scanners below (theorems [rmatch_modifyPattern] and
    [rmatch_containsPattern]), which the proofs use in place of the
    search. *)

(** The input left after the longest run of characters satisfying [p]. *)
Fixpoint dropWhile (p : ascii -> bool) (s : gostring) : gostring :=
  match s with
  | c :: s' => if p c then dropWhile p s' else s
  | [] => []
  end.

Definition bind {A B} (x : option A) (f : A -> option B) : option B :=
  match x with Some a => f a | None => None end.

(** Remove the literal [l] from the front of [s]. *)
Definition strip (l s : gostring) : option gostring :=
  if strings.HasPrefix s l then Some (skipn (length l) s) else None.

(** One or more characters of the class [p]. *)
Definition run1 (p : ascii -> bool) (s : gostring) : option gostring :=
  match s with
  | c :: s' => if p c then Some (dropWhile p s') else None
  | [] => None
  end.

(** Scheme, optional [www.], one of the two domains, and the slash. *)
Definition scanHead (s : gostring) : option gostring :=
  bind (strip (str "http") s) (fun s =>
  bind (strip (str "://") (strings.TrimPrefix s (str "s"))) (fun s =>
  let s := strings.TrimPrefix s (str "www.") in
  bind (orElse (strip (str "twitter.com") s) (strip (str "x.com") s)) (fun s =>
  strip (str "/") s))).

(** What [modifyPattern] leaves of [s] when it matches at its first byte. *)
Definition scanModify (s : gostring) : option gostring :=
  bind (scanHead (strings.TrimPrefix s (str "<"))) (fun s =>
  bind (run1 (mem notSlash) s) (fun s =>
  bind (strip (str "/status/") s) (fun s =>
  match s with
  | c :: s' => if mem Digit c then Some (dropWhile (mem notLtSpace) s') else None
  | [] => None
  end))).

(** What [containsPattern] leaves of [s] when it matches at its first byte. *)
Definition scanContains (s : gostring) : option gostring :=
  bind (scanHead s) (fun s =>
  bind (run1 (mem wordChar) s) (fun s =>
  bind (strip (str "/status/") s) (fun s =>
  run1 (mem (Range "0" "9")) s))).

(** What [linkPattern] leaves of [s] when it matches at its first byte. *)
Definition scanLink (s : gostring) : option gostring :=
  bind (scanHead s) (fun s =>
  bind (run1 (mem notSlash) s) (fun s =>
  bind (strip (str "/status/") s) (fun s =>
  run1 (mem Digit) s))).

(** The common start of the patterns, in front of the rest [r]. *)
Definition headRe (r : regex) : regex :=
  Cat (lit (str "http")) (Cat (Opt (Chr "s")) (Cat (lit (str "://"))
    (Cat (Opt (lit (str "www.")))
      (Cat (Alt (lit (str "twitter.com")) (lit (str "x.com")))
        (Cat (Chr "/") r))))).

(** The end of [modifyPattern]: the optional query, the trailing run and
    the optional closing bracket. *)
Definition tailRe : regex :=
  Cat (Opt (Cat (Chr "?") (Star notSpaceAngle)))
      (Cat (Star notLtSpace) (Cat (Opt (Chr ">")) Eps)).

(** *** The steps of the replacement *)

(** The function [modifyTwitterLinks] hands to the replacement loop. *)
Definition replaceMatch (m : gostring) : gostring :=
  if strings.HasPrefix m (str "<") && strings.HasSuffix m (str ">")
  then m else modifySingleLink m.

(** The function the first revision of [modifyTwitterLinks] hands to the
    replacement loop. *)
Definition firstReplace (m : gostring) : gostring :=
  if strings.Contains m (str "twitter.com") then
    strings.Replace m (str "twitter.com") (str "fxtwitter.com") 1
  else if strings.Contains m (str "x.com") then
    strings.Replace m (str "x.com") (str "fixupx.com") 1
  else m.

(** The first step of [modifySingleLink]: cut at the first [?]. *)
Definition beforeQuery (link : gostring) : gostring :=
  let idx := strings.Index link (str "?") in
  if negb (idx =? -1)%Z then firstn (Z.to_nat idx) link else link.

(** The remaining steps of [modifySingleLink]. *)
Definition replaceHost (link : gostring) : gostring :=
  let link := strings.TrimPrefix link (str "http://") in
  let link := strings.TrimPrefix link (str "https://") in
  let link := strings.TrimPrefix link (str "www.") in
  if strings.HasPrefix link (str "twitter.com") then
    str "https://fxtwitter.com" ++ strings.TrimPrefix link (str "twitter.com")
  else if strings.HasPrefix link (str "x.com") then
    str "https://fixupx.com" ++ strings.TrimPrefix link (str "x.com")
  else link.

(** *** Barriers

    A text [X] that starts with white space or [<] ([barrier]) and whose
    first slash does not start [/status/] ([blocked]) cannot be entered by a
    match that starts before it. *)

Definition barrier (X : gostring) : Prop :=
  match X with
  | x0 :: _ => mem notLtSpace x0 = false
  | [] => False
  end.

Definition blocked (X : gostring) : Prop :=
  strip (str "/status/") (dropWhile (mem notSlash) X) = None.

(** The result of a scan in front of [X]. *)
Definition extend (X : gostring) (r : option gostring) : option gostring :=
  option_map (fun s => s ++ X) r.

(** Where the text after a rewritten link may start: with white space, or
    not at all. *)
Definition afterLink (Z : gostring) : Prop :=
  Z = [] \/ exists c Z', Z = c :: Z' /\ isSpace c = true.

(** * Properties *)

(** ** Library facts: prefixes, literals, repetition *)

Section StringFacts.

Lemma HasPrefix_app (p r : gostring) : strings.HasPrefix (p ++ r) p = true.
Proof.
  induction p as [|c p IH]; simpl; [reflexivity|].
  now rewrite Ascii.eqb_refl, IH.
Qed.

Lemma HasPrefix_inv (p s : gostring) :
  strings.HasPrefix s p = true -> s = p ++ skipn (length p) s.
Proof.
  revert s; induction p as [|c p IH]; intros s H; simpl in *; [reflexivity|].
  destruct s as [|d s]; [discriminate|].
  apply andb_true_iff in H as [H1 H2].
  apply Ascii.eqb_eq in H1; subst d.
  simpl; f_equal; now apply IH.
Qed.

Lemma skipn_app_exact (p r : gostring) : skipn (length p) (p ++ r) = r.
Proof. induction p; simpl; auto. Qed.

Lemma TrimPrefix_app (p r : gostring) : strings.TrimPrefix (p ++ r) p = r.
Proof.
  unfold strings.TrimPrefix; now rewrite HasPrefix_app, skipn_app_exact.
Qed.

Lemma HasSuffix_app (s suffix : gostring) :
  strings.HasSuffix (s ++ suffix) suffix = true.
Proof. unfold strings.HasSuffix; rewrite rev_app_distr; apply HasPrefix_app. Qed.

End StringFacts.

Section MatcherFacts.

Implicit Types (k : gostring -> option gostring) (s : gostring).

Lemma dropWhile_run p (m s : gostring) :
  all p m -> stops p s -> dropWhile p (m ++ s) = s.
Proof.
  induction 1 as [|c m Hc _ IH]; intros Hs; simpl.
  - destruct s as [|c s]; [reflexivity|]. simpl in *. now rewrite Hs.
  - rewrite Hc. now apply IH.
Qed.

Lemma dropWhile_stops p s : stops p (dropWhile p s).
Proof.
  induction s as [|c s IH]; simpl; [exact I|].
  destruct (p c) eqn:E; [exact IH | exact E].
Qed.

Lemma dropWhile_split p s :
  exists m, s = m ++ dropWhile p s /\ all p m.
Proof.
  induction s as [|c s (m & E & Hm)]; simpl.
  - exists []; split; [reflexivity | constructor].
  - destruct (p c) eqn:Ec.
    + exists (c :: m); split; [simpl; now f_equal | now constructor].
    + exists []; split; [reflexivity | constructor].
Qed.

(** A class included in another: dropping the smaller run first changes
    nothing. *)
Lemma dropWhile_absorb (p q : ascii -> bool) s :
  (forall c, p c = true -> q c = true) ->
  dropWhile q (dropWhile p s) = dropWhile q s.
Proof.
  intros Hpq; induction s as [|c s IH]; simpl; [reflexivity|].
  destruct (p c) eqn:Ep.
  - now rewrite (Hpq _ Ep).
  - reflexivity.
Qed.

Lemma rmatch_lit (l : gostring) s k :
  rmatch (lit l) s k =
  if strings.HasPrefix s l then k (skipn (length l) s) else None.
Proof.
  revert s; induction l as [|c l IH]; intros s; simpl; [reflexivity|].
  destruct s as [|d s]; [reflexivity|].
  destruct (Ascii.eqb c d); simpl; [apply IH | reflexivity].
Qed.

Lemma rmatch_lit_app (l : gostring) s k : rmatch (lit l) (l ++ s) k = k s.
Proof. now rewrite rmatch_lit, HasPrefix_app, skipn_app_exact. Qed.

(** When the rest of the pattern accepts after the longest run, the greedy
    repetition stops there. *)
Lemma star_longest p s k x :
  k (dropWhile p s) = Some x -> star p s k = Some x.
Proof.
  induction s as [|c s IH]; simpl; [auto|].
  destruct (p c); [|auto].
  intros H; now rewrite (IH H).
Qed.

(** When the rest of the pattern cannot start with a character of the
    class, only the longest run can be followed by it. *)
Lemma star_forced p s k :
  (forall c s', p c = true -> k (c :: s') = None) ->
  star p s k = k (dropWhile p s).
Proof.
  intros Hk; induction s as [|c s IH]; simpl; [reflexivity|].
  destruct (p c) eqn:E; [|reflexivity].
  rewrite IH. rewrite (Hk c s E).
  now destruct (k (dropWhile p s)).
Qed.

(** The matcher only ever hands a suffix of its input to the rest of the
    pattern. *)
Lemma star_suffix p s k x :
  star p s k = Some x -> exists m s', s = m ++ s' /\ all p m /\ k s' = Some x.
Proof.
  induction s as [|c s IH]; simpl.
  - intros H; exists [], []; repeat split; [constructor | exact H].
  - destruct (p c) eqn:E.
    + destruct (star p s k) eqn:Es; simpl.
      * intros H; injection H as ->.
        destruct (IH eq_refl) as (m & s' & -> & Hm & Hk).
        exists (c :: m), s'; repeat split; [now constructor | exact Hk].
      * intros H; exists [], (c :: s); repeat split; [constructor | exact H].
    + intros H; exists [], (c :: s); repeat split; [constructor | exact H].
Qed.

Lemma rmatch_suffix (r : regex) : forall s k x,
  rmatch r s k = Some x -> exists m s', s = m ++ s' /\ k s' = Some x.
Proof.
  induction r as [|c|cs|r1 IH1 r2 IH2|r1 IH1 r2 IH2|r1 IH1|cs|cs];
    intros s k x H; simpl in H.
  - exists [], s; auto.
  - destruct s as [|d s]; [discriminate|].
    destruct (Ascii.eqb c d); [|discriminate].
    exists [d], s; auto.
  - destruct s as [|d s]; [discriminate|].
    destruct (mem cs d); [|discriminate].
    exists [d], s; auto.
  - apply IH1 in H as (m1 & s1 & -> & H).
    apply IH2 in H as (m2 & s2 & -> & H).
    exists (m1 ++ m2), s2; split; [now rewrite app_assoc | exact H].
  - destruct (rmatch r1 s k) eqn:E1; simpl in H.
    + injection H as ->. now apply IH1 in E1.
    + now apply IH2 in H.
  - destruct (rmatch r1 s k) eqn:E1; simpl in H.
    + injection H as ->. now apply IH1 in E1.
    + exists [], s; auto.
  - apply star_suffix in H as (m & s' & -> & _ & H). eauto.
  - destruct s as [|d s]; [discriminate|].
    destruct (mem cs d); [|discriminate].
    apply star_suffix in H as (m & s' & -> & _ & H).
    exists (d :: m), s'; auto.
Qed.

Lemma matchAt_Some re s m rest :
  matchAt re s = Some (m, rest) -> s = m ++ rest.
Proof.
  unfold matchAt. destruct (rmatch re s Some) as [r|] eqn:E; [|discriminate].
  intros H; injection H as <- <-.
  apply rmatch_suffix in E as (m & s' & -> & [= ->]).
  rewrite length_app, Nat.add_sub.
  now rewrite firstn_app, Nat.sub_diag, firstn_all, app_nil_r.
Qed.

Lemma matchAt_app re (m rest : gostring) :
  rmatch re (m ++ rest) Some = Some rest -> matchAt re (m ++ rest) = Some (m, rest).
Proof.
  unfold matchAt; intros ->.
  rewrite length_app, Nat.add_sub.
  now rewrite firstn_app, Nat.sub_diag, firstn_all, app_nil_r.
Qed.

Lemma matchAt_None re s : rmatch re s Some = None -> matchAt re s = None.
Proof. unfold matchAt; now intros ->. Qed.

End MatcherFacts.

(** ** The replacement loop *)

Section ReplaceLoop.

Variable re : regex.
Variable repl : gostring -> gostring.

Lemma matchAt_shorter s c m rest :
  matchAt re s = Some (c :: m, rest) -> length rest < length s.
Proof.
  intros H; apply matchAt_Some in H; subst s.
  rewrite length_app; simpl; lia.
Qed.

Lemma replaceLoop_fuel : forall n n' s,
  length s <= n -> length s <= n' ->
  replaceLoop n re repl s = replaceLoop n' re repl s.
Proof.
  induction n as [|n IH]; intros n' s Hn Hn'.
  - destruct s; [|simpl in Hn; lia]. now destruct n'.
  - destruct n' as [|n'].
    + destruct s; [reflexivity | simpl in Hn'; lia].
    + destruct s as [|c s]; [reflexivity|]. simpl in Hn, Hn'.
      cbn [replaceLoop].
      destruct (matchAt re (c :: s)) as [[[|d m] rest]|] eqn:E.
      * f_equal; apply IH; lia.
      * apply matchAt_shorter in E; simpl in E.
        f_equal; apply IH; lia.
      * f_equal; apply IH; lia.
Qed.

(** The loop, unfolded once: no match at the first byte. *)
Lemma replace_step_none c s :
  matchAt re (c :: s) = None ->
  ReplaceAllStringFunc re (c :: s) repl = c :: ReplaceAllStringFunc re s repl.
Proof.
  unfold ReplaceAllStringFunc; intros E; simpl. now rewrite E.
Qed.

(** The loop, unfolded once: a match at the first byte. *)
Lemma replace_step_match c m rest :
  matchAt re ((c :: m) ++ rest) = Some (c :: m, rest) ->
  ReplaceAllStringFunc re ((c :: m) ++ rest) repl =
  repl (c :: m) ++ ReplaceAllStringFunc re rest repl.
Proof.
  unfold ReplaceAllStringFunc; intros E.
  cbn [length app replaceLoop]. cbn [app] in E. rewrite E.
  f_equal. apply replaceLoop_fuel; [rewrite length_app; lia | lia].
Qed.

(** A stretch of text in which no match starts is copied. *)
Lemma replace_skip (pre rest : gostring) :
  (forall a b, pre = a ++ b -> b <> [] -> matchAt re (b ++ rest) = None) ->
  ReplaceAllStringFunc re (pre ++ rest) repl =
  pre ++ ReplaceAllStringFunc re rest repl.
Proof.
  induction pre as [|c pre IH]; intros H; [reflexivity|].
  cbn [app]. rewrite replace_step_none.
  - f_equal. apply IH. intros a b -> Hb. now apply (H (c :: a) b).
  - apply (H [] (c :: pre)); [reflexivity | discriminate].
Qed.

Lemma replace_nil : ReplaceAllStringFunc re [] repl = [].
Proof. reflexivity. Qed.

(** Text without any match is returned as it is. *)
Lemma replace_no_match s :
  (forall a b, s = a ++ b -> matchAt re b = None) ->
  ReplaceAllStringFunc re s repl = s.
Proof.
  intros H. rewrite <- (app_nil_r s) at 1. rewrite replace_skip.
  - now rewrite replace_nil, app_nil_r.
  - intros a b E _. rewrite app_nil_r. now apply (H a).
Qed.

End ReplaceLoop.

(** ** The patterns are deterministic

    The backtracking search on [modifyPattern] and on [containsPattern]
    computes what the one-pass scanners [scanModify] and [scanContains]
    compute. *)

Section Determinism.

Implicit Types (k : gostring -> option gostring) (s : gostring).

Lemma orElse_None_r {A} (x : option A) : orElse x None = x.
Proof. now destruct x. Qed.

Lemma rmatch_Cat r1 r2 s k :
  rmatch (Cat r1 r2) s k = rmatch r1 s (fun s' => rmatch r2 s' k).
Proof. reflexivity. Qed.

Lemma rmatch_Alt r1 r2 s k :
  rmatch (Alt r1 r2) s k = orElse (rmatch r1 s k) (rmatch r2 s k).
Proof. reflexivity. Qed.

Lemma rmatch_Chr c s k :
  rmatch (Chr c) s k = bind (strip [c] s) k.
Proof.
  destruct s as [|d s]; [reflexivity|].
  unfold strip; simpl. rewrite andb_true_r. now destruct (Ascii.eqb c d).
Qed.

Lemma rmatch_lit_strip (l : gostring) s k :
  rmatch (lit l) s k = bind (strip l s) k.
Proof. rewrite rmatch_lit; unfold strip. now destruct (strings.HasPrefix s l). Qed.

(** An optional literal that the rest of the pattern cannot start with. *)
Lemma rmatch_Opt_lit (l : gostring) s k :
  (forall s', k (l ++ s') = None) ->
  rmatch (Opt (lit l)) s k = k (strings.TrimPrefix s l).
Proof.
  intros Hk. cbn [rmatch]. rewrite rmatch_lit. unfold strings.TrimPrefix.
  destruct (strings.HasPrefix s l) eqn:E; [|reflexivity].
  rewrite (HasPrefix_inv _ _ E) at 2. now rewrite Hk, orElse_None_r.
Qed.

Lemma rmatch_Opt_Chr c s k :
  (forall s', k (c :: s') = None) ->
  rmatch (Opt (Chr c)) s k = k (strings.TrimPrefix s [c]).
Proof.
  intros Hk. cbn [rmatch].
  destruct s as [|d s]; [reflexivity|].
  unfold strings.TrimPrefix; simpl. rewrite andb_true_r.
  destruct (Ascii.eqb_spec c d) as [<-|]; [|reflexivity].
  now rewrite Hk, orElse_None_r.
Qed.

Lemma rmatch_headRe r s k :
  rmatch (headRe r) s k = bind (scanHead s) (fun s' => rmatch r s' k).
Proof.
  unfold headRe, scanHead.
  rewrite rmatch_Cat, rmatch_lit_strip.
  destruct (strip (str "http") s) as [s1|]; [|reflexivity]. cbn [bind].
  rewrite rmatch_Cat. rewrite rmatch_Opt_Chr by (intros; reflexivity).
  change [("s")%char] with (str "s").
  rewrite rmatch_Cat, rmatch_lit_strip.
  destruct (strip (str "://") _) as [s2|]; [|reflexivity]. cbn [bind].
  rewrite rmatch_Cat. rewrite rmatch_Opt_lit by (intros; reflexivity).
  set (s3 := strings.TrimPrefix s2 _).
  rewrite rmatch_Cat, rmatch_Alt, !rmatch_lit_strip.
  set (K := fun s' => rmatch (Cat (Chr "/") r) s' k).
  assert (HK : forall x, K x = bind (strip (str "/") x) (fun s' => rmatch r s' k)).
  { intros x; unfold K. now rewrite rmatch_Cat, rmatch_Chr. }
  destruct (strip (str "twitter.com") s3) as [s4|] eqn:E1; cbn [bind orElse].
  - assert (E2 : strip (str "x.com") s3 = None).
    { destruct s3 as [|c s3]; [discriminate|].
      unfold strip in *; simpl in *.
      destruct (Ascii.eqb_spec "t" c) as [<-|]; [reflexivity | discriminate E1]. }
    rewrite E2. cbn [bind]. now rewrite orElse_None_r.
  - destruct (strip (str "x.com") s3) as [s4|]; [|reflexivity]. cbn [bind].
    apply HK.
Qed.

Lemma rmatch_Plus_forced cs s k :
  (forall c s', mem cs c = true -> k (c :: s') = None) ->
  rmatch (Plus cs) s k = bind (run1 (mem cs) s) k.
Proof.
  intros Hk. destruct s as [|d s]; [reflexivity|]. cbn [rmatch run1].
  destruct (mem cs d); [|reflexivity]. now rewrite star_forced.
Qed.

Lemma rmatch_Plus_longest cs s k :
  (forall s', k (dropWhile (mem cs) s') = Some (dropWhile (mem cs) s')) ->
  rmatch (Plus cs) s k = run1 (mem cs) s.
Proof.
  intros Hk. destruct s as [|d s]; [reflexivity|]. cbn [rmatch run1].
  destruct (mem cs d); [|reflexivity]. now apply star_longest.
Qed.

End Determinism.

(** Facts about the character classes, by cases on the character tests. *)
Ltac class_cases :=
  cbn [mem notSlash notSpaceAngle notLtSpace wordChar] in *;
  repeat match goal with
         | |- context [Ascii.eqb ?a ?b] => destruct (Ascii.eqb_spec a b); subst
         | H : context [Ascii.eqb ?a ?b] |- _ => destruct (Ascii.eqb_spec a b); subst
         end;
  try (vm_compute in *; congruence).

Section Classes.

Lemma digit_notLtSpace c : mem Digit c = true -> mem notLtSpace c = true.
Proof. intros H. class_cases. Qed.

Lemma notSpaceAngle_notLtSpace c :
  mem notSpaceAngle c = true -> mem notLtSpace c = true.
Proof. intros H. class_cases. Qed.

Lemma wordChar_notSlash c : mem wordChar c = true -> mem notSlash c = true.
Proof. intros H. class_cases. Qed.

Lemma digit_notSlash c : mem Digit c = true -> mem notSlash c = true.
Proof. intros H. class_cases. Qed.

Lemma range09_digit c : mem (Range "0" "9") c = mem Digit c.
Proof. reflexivity. Qed.

Lemma notSlash_spec c : mem notSlash c = true <-> c <> "/"%char.
Proof. split; intros H; class_cases. Qed.

End Classes.

Section Scanners.

Lemma closing_after_run s :
  stops (mem notLtSpace) s -> rmatch (Cat (Opt (Chr ">")) Eps) s Some = Some s.
Proof.
  intros H. cbn [rmatch].
  destruct s as [|c s]; [reflexivity|]. simpl in H.
  destruct (Ascii.eqb_spec ">" c) as [<-|]; [discriminate H | reflexivity].
Qed.

Lemma trailing_run s :
  rmatch (Cat (Star notLtSpace) (Cat (Opt (Chr ">")) Eps)) s Some
  = Some (dropWhile (mem notLtSpace) s).
Proof.
  rewrite rmatch_Cat. cbn [rmatch]. apply star_longest.
  apply closing_after_run, dropWhile_stops.
Qed.

Lemma optional_query k s :
  (forall x, k x = Some (dropWhile (mem notLtSpace) x)) ->
  rmatch (Opt (Cat (Chr "?") (Star notSpaceAngle))) s k
  = Some (dropWhile (mem notLtSpace) s).
Proof.
  intros Hk.
  change (orElse (rmatch (Chr "?") s (fun s' => star (mem notSpaceAngle) s' k)) (k s)
          = Some (dropWhile (mem notLtSpace) s)).
  destruct s as [|c s]; [apply Hk|]. cbn [rmatch].
  destruct (Ascii.eqb_spec "?" c) as [<-|]; [|apply Hk].
  rewrite (star_longest _ _ _ _ (Hk _)). cbn [orElse].
  now rewrite dropWhile_absorb by apply notSpaceAngle_notLtSpace.
Qed.

Lemma rmatch_tailRe s :
  rmatch tailRe s Some = Some (dropWhile (mem notLtSpace) s).
Proof.
  unfold tailRe. rewrite rmatch_Cat. apply optional_query, trailing_run.
Qed.

Theorem rmatch_modifyPattern s :
  rmatch modifyPattern s Some = scanModify s.
Proof.
  change modifyPattern with
    (Cat (Opt (Chr "<"))
       (headRe (Cat (Plus notSlash)
                  (Cat (lit (str "/status/")) (Cat (Plus Digit) tailRe))))).
  rewrite rmatch_Cat. rewrite rmatch_Opt_Chr.
  2:{ intros s'. now rewrite rmatch_headRe. }
  unfold scanModify. change [("<")%char] with (str "<").
  rewrite rmatch_headRe.
  destruct (scanHead _) as [s1|]; [|reflexivity]. cbn [bind].
  rewrite rmatch_Cat. rewrite rmatch_Plus_forced.
  2:{ intros c s' Hc. rewrite rmatch_Cat, rmatch_lit_strip.
      unfold strip; simpl. apply notSlash_spec in Hc.
      destruct (Ascii.eqb_spec "/" c); [congruence | reflexivity]. }
  destruct (run1 _ s1) as [s2|]; [|reflexivity]. cbn [bind].
  rewrite rmatch_Cat, rmatch_lit_strip.
  destruct (strip _ s2) as [s3|]; [|reflexivity]. cbn [bind].
  rewrite rmatch_Cat.
  destruct s3 as [|c s3]; [reflexivity|]. cbn [rmatch].
  destruct (mem Digit c); [|reflexivity].
  apply star_longest. rewrite rmatch_tailRe.
  now rewrite dropWhile_absorb by apply digit_notLtSpace.
Qed.

Theorem rmatch_containsPattern s :
  rmatch containsPattern s Some = scanContains s.
Proof.
  change containsPattern with
    (headRe (Cat (Plus wordChar)
               (Cat (lit (str "/status/")) (Cat (Plus (Range "0" "9")) Eps)))).
  unfold scanContains. rewrite rmatch_headRe.
  destruct (scanHead _) as [s1|]; [|reflexivity]. cbn [bind].
  rewrite rmatch_Cat. rewrite rmatch_Plus_forced.
  2:{ intros c s' Hc. rewrite rmatch_Cat, rmatch_lit_strip.
      unfold strip; simpl. apply wordChar_notSlash, notSlash_spec in Hc.
      destruct (Ascii.eqb_spec "/" c); [congruence | reflexivity]. }
  destruct (run1 _ s1) as [s2|]; [|reflexivity]. cbn [bind].
  rewrite rmatch_Cat, rmatch_lit_strip.
  destruct (strip _ s2) as [s3|]; [|reflexivity]. cbn [bind].
  rewrite rmatch_Cat. apply rmatch_Plus_longest. reflexivity.
Qed.

End Scanners.

(** ** What the scanners accept

    The scanner of [modifyPattern] accepts exactly a status link, possibly
    after [<], together with the run of characters other than white space
    and [<] that follows its first digit. *)

Section ScanFacts.

Lemma scanHead_prefix p w d r : scanHead (linkPrefix p w d ++ r) = Some r.
Proof. destruct p, w, d; reflexivity. Qed.

Lemma strip_inv l s r : strip l s = Some r -> s = l ++ r.
Proof.
  unfold strip. destruct (strings.HasPrefix s l) eqn:E; [|discriminate].
  intros [= <-]. now apply HasPrefix_inv.
Qed.

Lemma strip_app l r : strip l (l ++ r) = Some r.
Proof. unfold strip. now rewrite HasPrefix_app, skipn_app_exact. Qed.

Lemma TrimPrefix_cases l s :
  (s = l ++ strings.TrimPrefix s l) \/ (strings.TrimPrefix s l = s).
Proof.
  unfold strings.TrimPrefix.
  destruct (strings.HasPrefix s l) eqn:E; [left | now right].
  now apply HasPrefix_inv.
Qed.

Lemma scanHead_inv s r :
  scanHead s = Some r -> exists p w d, s = linkPrefix p w d ++ r.
Proof.
  unfold scanHead.
  destruct (strip (str "http") s) as [s1|] eqn:E1; [|discriminate]. cbn [bind].
  apply strip_inv in E1. subst s.
  destruct (strip (str "://") _) as [s2|] eqn:E2; [|discriminate]. cbn [bind].
  apply strip_inv in E2.
  destruct (orElse _ _) as [s3|] eqn:E3; [|discriminate]. cbn [bind].
  intros E4. apply strip_inv in E4. subst s3.
  assert (exists p, str "http" ++ s1 = schemeStr p ++ s2) as [p ->].
  { destruct (TrimPrefix_cases (str "s") s1) as [H|H].
    - exists Https. rewrite H, E2. reflexivity.
    - exists Http. rewrite H in E2. rewrite E2. reflexivity. }
  assert (exists w d, s2 = wwwStr w ++ domainStr d ++ str "/" ++ r)
    as (w & d & ->);
    [|exists p, w, d; unfold linkPrefix; now rewrite <- !app_assoc].
  set (s3 := strings.TrimPrefix s2 (str "www.")) in *.
  assert (exists d, s3 = domainStr d ++ str "/" ++ r) as [d Hd].
  { destruct (strip (str "twitter.com") s3) as [x|] eqn:Et; cbn [orElse] in E3.
    - injection E3 as ->. exists Twitter. now apply strip_inv in Et.
    - exists X. now apply strip_inv in E3. }
  destruct (TrimPrefix_cases (str "www.") s2) as [H|H]; fold s3 in H.
  - exists true, d. now rewrite H, Hd.
  - exists false, d. now rewrite <- H, Hd.
Qed.

Lemma run1_run p c (m s : gostring) :
  p c = true -> all p m -> stops p s -> run1 p ((c :: m) ++ s) = Some s.
Proof.
  intros Hc Hm Hs. cbn [app run1]. rewrite Hc. now rewrite dropWhile_run.
Qed.

Lemma run1_inv p s r :
  run1 p s = Some r -> exists c m, s = (c :: m) ++ r /\ p c = true /\ all p m /\ stops p r.
Proof.
  destruct s as [|c s]; [discriminate|]. cbn [run1].
  destruct (p c) eqn:Ec; [|discriminate]. intros [= <-].
  destruct (dropWhile_split p s) as (m & E & Hm).
  exists c, m. repeat split; auto using dropWhile_stops.
  cbn [app]. now rewrite <- E.
Qed.

Lemma stops_slash s : stops (mem notSlash) (str "/status/" ++ s).
Proof. reflexivity. Qed.

Lemma all_app p (a b : gostring) : all p a -> all p b -> all p (a ++ b).
Proof. intros; now apply Forall_app. Qed.

Lemma all_impl (p q : ascii -> bool) s :
  (forall c, p c = true -> q c = true) -> all p s -> all q s.
Proof. intros H; apply Forall_impl; exact H. Qed.

(** Completeness of the scanner on a status link followed by a run of
    non-blank characters. *)
Lemma scanModify_link (lt : bool) p w d c h e id t post :
  all (mem notSlash) (c :: h) ->
  all isDigit (e :: id) ->
  all (mem notLtSpace) t ->
  stops (mem notLtSpace) post ->
  scanModify ((if lt then str "<" else []) ++
              statusLink p w d (c :: h) (e :: id) ++ t ++ post) = Some post.
Proof.
  intros Hh Hid Ht Hpost. unfold scanModify, statusLink.
  assert (E : strings.TrimPrefix
                ((if lt then str "<" else []) ++
                 (linkPrefix p w d ++ (c :: h) ++ str "/status/" ++ e :: id) ++ t ++ post)
                (str "<")
              = linkPrefix p w d ++
                ((c :: h) ++ str "/status/" ++ (e :: id) ++ t ++ post)).
  { destruct lt.
    - rewrite TrimPrefix_app. now rewrite <- !app_assoc.
    - rewrite <- !app_assoc. destruct p, w, d; reflexivity. }
  rewrite E, scanHead_prefix. cbn [bind].
  inversion Hh as [|? ? Hc Hh']; subst.
  rewrite run1_run; [|assumption..|apply stops_slash]. cbn [bind].
  rewrite strip_app. cbn [bind app].
  inversion Hid as [|? ? He Hid']; subst.
  unfold isDigit in He. rewrite He. f_equal.
  rewrite app_assoc. apply dropWhile_run; [|assumption].
  apply all_app; [|assumption].
  eapply all_impl; [apply digit_notLtSpace | exact Hid'].
Qed.

(** Soundness of the scanner: what it accepts is a status link, possibly
    after [<], followed by a run of non-blank characters. *)
Lemma scanModify_inv s post :
  scanModify s = Some post ->
  exists (lt : bool) p w d c h e t,
    s = (if lt then str "<" else []) ++
        statusLink p w d (c :: h) [e] ++ t ++ post
    /\ all (mem notSlash) (c :: h) /\ isDigit e = true
    /\ all (mem notLtSpace) t /\ stops (mem notLtSpace) post.
Proof.
  unfold scanModify.
  destruct (scanHead _) as [s1|] eqn:E1; [|discriminate]. cbn [bind].
  destruct (run1 _ s1) as [s2|] eqn:E2; [|discriminate]. cbn [bind].
  destruct (strip _ s2) as [s3|] eqn:E3; [|discriminate]. cbn [bind].
  destruct s3 as [|e s3]; [discriminate|].
  destruct (mem Digit e) eqn:Ee; [|discriminate]. intros [= <-].
  apply scanHead_inv in E1 as (p & w & d & E1).
  apply run1_inv in E2 as (c & h & -> & Hc & Hh & _).
  apply strip_inv in E3 as ->.
  destruct (dropWhile_split (mem notLtSpace) s3) as (t & Et & Ht).
  assert (exists lt : bool,
            s = (if lt then str "<" else []) ++ strings.TrimPrefix s (str "<"))
    as [lt Hlt].
  { destruct (TrimPrefix_cases (str "<") s) as [H|H].
    - now exists true.
    - exists false. now rewrite H. }
  exists lt, p, w, d, c, h, e, t. repeat split; auto using dropWhile_stops.
  - rewrite Hlt at 1. rewrite E1. unfold statusLink. f_equal.
    rewrite <- !app_assoc. do 3 f_equal. cbn [app]. do 9 f_equal. exact Et.
  - now constructor.
Qed.

End ScanFacts.

(** ** Rewriting one match *)

Section SingleLink.

Lemma modifyTwitterLinks_unfold content :
  modifyTwitterLinks content = ReplaceAllStringFunc modifyPattern content replaceMatch.
Proof. reflexivity. Qed.

Lemma modifySingleLink_unfold link :
  modifySingleLink link = replaceHost (beforeQuery link).
Proof. reflexivity. Qed.

Lemma Index_cons c s (sub : ascii) :
  strings.Index (c :: s) [sub] =
  if Ascii.eqb sub c then 0%Z
  else let i := strings.Index s [sub] in if (i <? 0)%Z then (-1)%Z else (i + 1)%Z.
Proof. cbn [strings.Index strings.HasPrefix]. now rewrite andb_true_r. Qed.

Lemma Index_absent s : noQuestion s -> strings.Index s (str "?") = (-1)%Z.
Proof.
  unfold noQuestion. induction s as [|c s IH]; intros H; [reflexivity|].
  change (str "?") with [("?")%char] in *. rewrite Index_cons.
  destruct (Ascii.eqb_spec "?" c) as [<-|]; [exfalso; apply H; now left|].
  rewrite IH; [reflexivity|]. intros Hin; apply H; now right.
Qed.

Lemma Index_first l r :
  noQuestion l -> strings.Index (l ++ "?"%char :: r) (str "?") = Z.of_nat (length l).
Proof.
  unfold noQuestion. induction l as [|c l IH]; intros H; [reflexivity|].
  change (str "?") with [("?")%char] in *. cbn [app]. rewrite Index_cons.
  destruct (Ascii.eqb_spec "?" c) as [<-|]; [exfalso; apply H; now left|].
  rewrite IH by (intros Hin; apply H; now right).
  cbn zeta. destruct (Z.ltb_spec (Z.of_nat (length l)) 0); [lia|].
  cbn [length]. lia.
Qed.

Lemma beforeQuery_absent s : noQuestion s -> beforeQuery s = s.
Proof. intros H. unfold beforeQuery. now rewrite Index_absent. Qed.

Lemma beforeQuery_first l r : noQuestion l -> beforeQuery (l ++ "?"%char :: r) = l.
Proof.
  intros H. unfold beforeQuery. rewrite Index_first by assumption.
  destruct (Z.eqb_spec (Z.of_nat (length l)) (-1)); [lia|]. cbn [negb].
  rewrite Nat2Z.id, firstn_app, Nat.sub_diag, firstn_all. cbn [firstn].
  apply app_nil_r.
Qed.

Lemma replaceHost_link p w d r :
  replaceHost (linkPrefix p w d ++ r) = str "https://" ++ mirror d ++ str "/" ++ r.
Proof. destruct p, w, d; reflexivity. Qed.

Lemma noQuestion_app a b : noQuestion a -> noQuestion b -> noQuestion (a ++ b).
Proof. unfold noQuestion; intros Ha Hb H. apply in_app_or in H. tauto. Qed.

Lemma noQuestion_linkPrefix p w d : noQuestion (linkPrefix p w d).
Proof.
  unfold noQuestion. destruct p, w, d; cbn; intros H;
    repeat (destruct H as [H|H]; [discriminate H|]); exact H.
Qed.

Lemma noQuestion_digits s : all isDigit s -> noQuestion s.
Proof.
  unfold noQuestion. induction 1 as [|c s Hc _ IH]; [tauto|].
  intros [->|H]; [discriminate Hc | tauto].
Qed.

(** [modifySingleLink] on a status link followed by further text and a
    query: the query goes, the rest is kept behind the mirror domain. *)
Lemma modifySingleLink_link p w d h id t q :
  noQuestion h -> all isDigit id -> noQuestion t -> isQuery q ->
  modifySingleLink (statusLink p w d h id ++ t ++ q) = rewrittenLink d h id ++ t.
Proof.
  intros Hh Hid Ht Hq. rewrite modifySingleLink_unfold.
  assert (Hl : noQuestion (statusLink p w d h id ++ t)).
  { unfold statusLink.
    apply noQuestion_app; [|exact Ht].
    apply noQuestion_app; [apply noQuestion_linkPrefix|].
    apply noQuestion_app; [exact Hh|].
    apply noQuestion_app; [|now apply noQuestion_digits].
    unfold noQuestion; cbn; intros H;
      repeat (destruct H as [H|H]; [discriminate H|]); exact H. }
  assert (E : beforeQuery (statusLink p w d h id ++ t ++ q) = statusLink p w d h id ++ t).
  { rewrite app_assoc. destruct Hq as [->|[q' ->]].
    - rewrite app_nil_r. now apply beforeQuery_absent.
    - now apply beforeQuery_first. }
  rewrite E. unfold statusLink, rewrittenLink.
  rewrite <- !app_assoc. now rewrite replaceHost_link.
Qed.

Lemma replaceMatch_link p w d h id r :
  replaceMatch (statusLink p w d h id ++ r) = modifySingleLink (statusLink p w d h id ++ r).
Proof. destruct p, w, d; reflexivity. Qed.

Lemma replaceMatch_escaped m :
  replaceMatch (str "<" ++ m ++ str ">") = str "<" ++ m ++ str ">".
Proof.
  unfold replaceMatch. rewrite HasPrefix_app.
  now rewrite app_assoc, HasSuffix_app.
Qed.

End SingleLink.

(** ** Matches do not reach across a barrier

    A text [X] that starts with white space or [<] and whose first slash
    does not start [/status/] cannot be entered by a match that starts
    before it: the literals and the digit, query and trailing runs stop at
    its first byte, and a handle that runs into it finds no [/status/]. *)

Section Locality.

Lemma bind_assoc {A B C} (x : option A) (f : A -> option B) (g : B -> option C) :
  bind x (fun s => bind (f s) g) = bind (bind x f) g.
Proof. now destruct x. Qed.

Lemma strip_cons c l d s :
  strip (c :: l) (d :: s) = if Ascii.eqb c d then strip l s else None.
Proof. unfold strip; cbn. now destruct (Ascii.eqb c d). Qed.

Lemma strip_ctx l a x0 X :
  ~ In x0 l -> strip l (a ++ x0 :: X) = extend (x0 :: X) (strip l a).
Proof.
  revert a; induction l as [|c l IH]; intros a H; [reflexivity|].
  destruct a as [|d a]; cbn [app].
  - rewrite strip_cons. destruct (Ascii.eqb_spec c x0) as [->|]; [|reflexivity].
    exfalso; apply H; now left.
  - rewrite !strip_cons. destruct (Ascii.eqb c d); [|reflexivity].
    apply IH. intros Hin; apply H; now right.
Qed.

Lemma TrimPrefix_strip l s :
  strings.TrimPrefix s l = match strip l s with Some r => r | None => s end.
Proof. unfold strings.TrimPrefix, strip. now destruct (strings.HasPrefix s l). Qed.

Lemma TrimPrefix_ctx l a x0 X :
  ~ In x0 l ->
  strings.TrimPrefix (a ++ x0 :: X) l = strings.TrimPrefix a l ++ x0 :: X.
Proof.
  intros H. rewrite !TrimPrefix_strip, strip_ctx by assumption.
  now destruct (strip l a).
Qed.

Lemma TrimPrefix_lt_ctx c a X :
  strings.TrimPrefix ((c :: a) ++ X) (str "<") = strings.TrimPrefix (c :: a) (str "<") ++ X.
Proof.
  unfold strings.TrimPrefix; cbn.
  now destruct (Ascii.eqb "<" c).
Qed.

(** A barrier character occurs in none of the literals of the patterns. *)
Ltac not_in_literal Hx :=
  let Hin := fresh in
  intros Hin; cbn in Hin;
  repeat (destruct Hin as [<-|Hin]; [vm_compute in Hx; discriminate Hx|]);
  exact Hin.

Lemma scanHead_ctx a x0 X :
  mem notLtSpace x0 = false ->
  scanHead (a ++ x0 :: X) = extend (x0 :: X) (scanHead a).
Proof.
  intros Hx. unfold scanHead.
  rewrite strip_ctx by not_in_literal Hx.
  destruct (strip (str "http") a) as [a1|]; [|reflexivity]. cbn [extend option_map bind].
  rewrite TrimPrefix_ctx by not_in_literal Hx.
  rewrite strip_ctx by not_in_literal Hx.
  destruct (strip (str "://") _) as [a2|]; [|reflexivity]. cbn [extend option_map bind].
  rewrite TrimPrefix_ctx by not_in_literal Hx.
  rewrite !strip_ctx by not_in_literal Hx.
  destruct (strip (str "twitter.com") _) as [a3|]; cbn [extend option_map bind orElse].
  - now rewrite strip_ctx by not_in_literal Hx.
  - destruct (strip (str "x.com") _) as [a3|]; [|reflexivity].
    cbn [extend option_map bind]. now rewrite strip_ctx by not_in_literal Hx.
Qed.

Lemma dropWhile_app p (a b : gostring) :
  dropWhile p (a ++ b) =
  match dropWhile p a with
  | [] => dropWhile p b
  | r => r ++ b
  end.
Proof.
  induction a as [|c a IH]; cbn [app dropWhile].
  - now destruct (dropWhile p b).
  - destruct (p c); [exact IH | reflexivity].
Qed.

Lemma dropWhile_app_stops p (a b : gostring) :
  stops p b -> dropWhile p (a ++ b) = dropWhile p a ++ b.
Proof.
  intros Hb. rewrite dropWhile_app.
  destruct (dropWhile p a); [|reflexivity].
  destruct b as [|c b]; [reflexivity|]. cbn in *. now rewrite Hb.
Qed.

Lemma barrier_notSlash x0 : mem notLtSpace x0 = false -> mem notSlash x0 = true.
Proof. intros H. class_cases. Qed.

Lemma barrier_notDigit x0 : mem notLtSpace x0 = false -> mem Digit x0 = false.
Proof.
  intros H. destruct (mem Digit x0) eqn:E; [|reflexivity].
  apply digit_notLtSpace in E. congruence.
Qed.

(** The handle and the literal [/status/] in front of a barrier. *)
Lemma handle_ctx a x0 X :
  mem notLtSpace x0 = false -> blocked (x0 :: X) ->
  bind (run1 (mem notSlash) (a ++ x0 :: X)) (strip (str "/status/"))
  = extend (x0 :: X) (bind (run1 (mem notSlash) a) (strip (str "/status/"))).
Proof.
  intros Hx Hb. unfold blocked in Hb. cbn [dropWhile] in Hb.
  rewrite (barrier_notSlash _ Hx) in Hb.
  destruct a as [|c a]; cbn [app run1].
  - now rewrite (barrier_notSlash _ Hx).
  - destruct (mem notSlash c); [|reflexivity]. cbn [bind].
    rewrite dropWhile_app.
    destruct (dropWhile (mem notSlash) a) as [|e r] eqn:E.
    + cbn [dropWhile]. rewrite (barrier_notSlash _ Hx). now rewrite Hb.
    + change (e :: r ++ x0 :: X) with ((e :: r) ++ x0 :: X).
      apply strip_ctx. not_in_literal Hx.
Qed.

Theorem scanModify_ctx c a X :
  barrier X -> blocked X ->
  scanModify ((c :: a) ++ X) = extend X (scanModify (c :: a)).
Proof.
  intros Hx Hb. destruct X as [|x0 X]; [contradiction|]. cbn [barrier] in Hx.
  unfold scanModify.
  rewrite TrimPrefix_lt_ctx, scanHead_ctx by assumption.
  destruct (scanHead _) as [a1|]; [|reflexivity]. cbn [extend option_map bind].
  set (D := fun s : gostring =>
              match s with
              | e :: s' =>
                  if mem Digit e then Some (dropWhile (mem notLtSpace) s') else None
              | [] => None
              end).
  rewrite (bind_assoc (run1 (mem notSlash) (a1 ++ x0 :: X)) (strip (str "/status/")) D).
  rewrite (bind_assoc (run1 (mem notSlash) a1) (strip (str "/status/")) D).
  rewrite handle_ctx by assumption.
  destruct (bind (run1 (mem notSlash) a1) (strip (str "/status/"))) as [a3|];
    [|reflexivity].
  cbn [bind extend option_map]. unfold D.
  destruct a3 as [|e a3]; cbn [app].
  - now rewrite (barrier_notDigit _ Hx).
  - destruct (mem Digit e); [|reflexivity]. cbn [extend option_map]. f_equal.
    now apply dropWhile_app_stops.
Qed.

End Locality.

(** ** The rewriter on structured text *)

Section Rewriter.

Lemma matchAt_modify_some (m rest : gostring) :
  scanModify (m ++ rest) = Some rest ->
  matchAt modifyPattern (m ++ rest) = Some (m, rest).
Proof. intros H. apply matchAt_app. now rewrite rmatch_modifyPattern. Qed.

Lemma matchAt_modify_none s :
  scanModify s = None -> matchAt modifyPattern s = None.
Proof. intros H. apply matchAt_None. now rewrite rmatch_modifyPattern. Qed.

Lemma statusLink_cons p w d h id :
  exists m, statusLink p w d h id = "h"%char :: m.
Proof. destruct p; eexists; reflexivity. Qed.

(** A match is never empty. *)
Lemma scanModify_split s rest :
  scanModify s = Some rest -> exists c m, s = (c :: m) ++ rest.
Proof.
  intros H. apply scanModify_inv in H
    as (lt & p & w & d & c & h & e & t & -> & _).
  destruct (statusLink_cons p w d (c :: h) [e]) as [m ->].
  destruct lt.
  - exists "<"%char, (("h"%char :: m) ++ t).
    cbn [app str list_ascii_of_string]. now rewrite <- app_assoc.
  - exists "h"%char, (m ++ t). cbn [app]. now rewrite <- app_assoc.
Qed.

Lemma pattern_match_nonempty s rest :
  matchAt modifyPattern s <> Some ([], rest).
Proof.
  intros H. pose proof (matchAt_Some _ _ _ _ H) as E. cbn [app] in E. subst s.
  unfold matchAt in H. rewrite rmatch_modifyPattern in H.
  destruct (scanModify rest) as [r|] eqn:Er; [|discriminate].
  injection H as H ->.
  apply scanModify_split in Er as (c & m & Er).
  apply (f_equal (@length _)) in Er. rewrite length_app in Er. cbn in Er. lia.
Qed.

(** A match at the first byte is replaced and the loop goes on behind it. *)
Lemma modify_step_match c m rest :
  scanModify ((c :: m) ++ rest) = Some rest ->
  modifyTwitterLinks ((c :: m) ++ rest) = replaceMatch (c :: m) ++ modifyTwitterLinks rest.
Proof.
  intros H. rewrite !modifyTwitterLinks_unfold.
  apply replace_step_match. now apply matchAt_modify_some.
Qed.

Lemma modify_step_none c s :
  scanModify (c :: s) = None ->
  modifyTwitterLinks (c :: s) = c :: modifyTwitterLinks s.
Proof.
  intros H. rewrite !modifyTwitterLinks_unfold.
  apply replace_step_none. now apply matchAt_modify_none.
Qed.

(** The rewriter works on both sides of a barrier independently. *)
Theorem modify_app a X :
  barrier X -> blocked X ->
  modifyTwitterLinks (a ++ X) = modifyTwitterLinks a ++ modifyTwitterLinks X.
Proof.
  intros Hx Hb.
  remember (length a) as n eqn:Hn.
  revert a Hn; induction n as [n IH] using lt_wf_ind; intros a Hn.
  destruct a as [|c a]; [reflexivity|].
  destruct (scanModify (c :: a)) as [r|] eqn:E.
  - pose proof (scanModify_split _ _ E) as (d & m & Es).
    assert (Ec : scanModify ((d :: m) ++ r ++ X) = Some (r ++ X)).
    { rewrite app_assoc, <- Es. rewrite scanModify_ctx by assumption. now rewrite E. }
    rewrite Es in E |- *. rewrite <- app_assoc.
    rewrite (modify_step_match _ _ _ Ec), (modify_step_match _ _ _ E).
    rewrite <- app_assoc. f_equal.
    apply (IH (length r)); [|reflexivity].
    subst n. rewrite Es, length_app. cbn. lia.
  - cbn [app].
    assert (Ec : scanModify (c :: a ++ X) = None).
    { change (c :: a ++ X) with ((c :: a) ++ X).
      rewrite scanModify_ctx by assumption. now rewrite E. }
    rewrite (modify_step_none _ _ Ec), (modify_step_none _ _ E).
    cbn [app]. f_equal. apply (IH (length a)); [subst n; cbn; lia | reflexivity].
Qed.

Lemma queryText_all q : queryText q -> all (mem notLtSpace) q.
Proof. intros [->|(q' & -> & H)]; [constructor | now constructor]. Qed.

Lemma queryText_isQuery q : queryText q -> isQuery q.
Proof. intros [->|(q' & -> & H)]; [now left | right; eauto]. Qed.

(** A status link at the start of the text, followed by trailing text and
    a query, up to white space, [<] or the end. *)
Theorem modify_link p w d h id t q post :
  h <> [] -> all (mem notSlash) h -> noQuestion h ->
  id <> [] -> all isDigit id ->
  all (mem notLtSpace) t -> noQuestion t -> queryText q ->
  stops (mem notLtSpace) post ->
  modifyTwitterLinks (statusLink p w d h id ++ t ++ q ++ post)
  = rewrittenLink d h id ++ t ++ modifyTwitterLinks post.
Proof.
  intros Hh Hs Hq Hid Hd Ht Htq Hqq Hpost.
  destruct h as [|c h]; [congruence|]. destruct id as [|e id]; [congruence|].
  assert (E : scanModify ((statusLink p w d (c :: h) (e :: id) ++ t ++ q) ++ post)
              = Some post).
  { rewrite <- !app_assoc. rewrite (app_assoc t q post).
    apply (scanModify_link false); auto.
    apply all_app; auto using queryText_all. }
  destruct (statusLink_cons p w d (c :: h) (e :: id)) as [m Hm].
  rewrite (app_assoc t q post), app_assoc.
  rewrite Hm in E |- *. cbn [app] in E |- *.
  change ("h"%char :: (m ++ t ++ q) ++ post) with (("h"%char :: m ++ t ++ q) ++ post) in *.
  rewrite (modify_step_match _ _ _ E).
  change ("h"%char :: m ++ t ++ q) with (("h"%char :: m) ++ t ++ q).
  rewrite <- Hm. rewrite replaceMatch_link.
  rewrite modifySingleLink_link by auto using queryText_isQuery.
  now rewrite <- app_assoc.
Qed.

(** A status link between [<] and [>], up to white space, [<] or the end. *)
Theorem modify_escaped p w d h id t post :
  h <> [] -> all (mem notSlash) h ->
  id <> [] -> all isDigit id ->
  all (mem notLtSpace) t ->
  stops (mem notLtSpace) post ->
  modifyTwitterLinks (str "<" ++ (statusLink p w d h id ++ t) ++ str ">" ++ post)
  = str "<" ++ (statusLink p w d h id ++ t) ++ str ">" ++ modifyTwitterLinks post.
Proof.
  intros Hh Hs Hid Hd Ht Hpost.
  destruct h as [|c h]; [congruence|]. destruct id as [|e id]; [congruence|].
  set (L := statusLink p w d (c :: h) (e :: id)).
  assert (E : scanModify (("<"%char :: (L ++ t) ++ str ">") ++ post) = Some post).
  { change (scanModify ((str "<" ++ (L ++ t) ++ str ">") ++ post) = Some post).
    rewrite <- !app_assoc. rewrite (app_assoc t (str ">") post).
    apply (scanModify_link true); auto.
    apply all_app; auto. now constructor. }
  change (str "<" ++ (L ++ t) ++ str ">" ++ post)
    with ("<"%char :: (L ++ t) ++ str ">" ++ post).
  rewrite (app_assoc (L ++ t) (str ">") post), app_comm_cons.
  rewrite (modify_step_match _ _ _ E).
  change ("<"%char :: (L ++ t) ++ str ">") with (str "<" ++ (L ++ t) ++ str ">").
  rewrite replaceMatch_escaped. now rewrite <- !app_assoc.
Qed.

End Rewriter.

(** ** The preview classifier and the handler *)

Section ClassifierFacts.

Variable hostname : gostring -> option gostring.
Variable sendFails : gostring -> gostring -> bool.

Lemma eqs_spec a b : reflect (a = b) (eqs a b).
Proof.
  revert b; induction a as [|c a IH]; intros [|d b]; cbn;
    try (constructor; congruence).
  destruct (Ascii.eqb_spec c d) as [->|Hn]; cbn.
  - destruct (IH b) as [->|Hn]; constructor; congruence.
  - constructor; congruence.
Qed.

Lemma eqs_refl a : eqs a a = true.
Proof. now destruct (eqs_spec a a). Qed.

Lemma anySuffix_In host cdn cdns :
  In cdn cdns -> strings.HasSuffix host cdn = true -> anySuffix host cdns = true.
Proof.
  induction cdns as [|c cdns IH]; [contradiction|]. cbn.
  intros [->|Hin] H; [now rewrite H|].
  destruct (strings.HasSuffix host c); [reflexivity | now apply IH].
Qed.



Lemma Preview_checkHost_listed host cdn :
  In cdn Preview.twitterCDNs -> strings.HasSuffix host cdn = true ->
  Preview.checkHost host = Some true.
Proof.
  intros Hin H. unfold Preview.checkHost. now rewrite (anySuffix_In _ _ _ Hin H).
Qed.

(** The attachment loop of [hasValidTwitterPreview] finds a working
    attachment wherever it is in the list. *)
Lemma Preview_anyAttachment_In att atts :
  In att atts -> Preview.isWorkingTwitterAttachment hostname att = true ->
  Preview.anyAttachment hostname atts = true.
Proof.
  induction atts as [|a atts IH]; [contradiction|]. cbn.
  intros [->|Hin] H; [now rewrite H|].
  destruct (Preview.isWorkingTwitterAttachment hostname a); [reflexivity | now apply IH].
Qed.

(** In the revisions with [hasValidTwitterPreview], an attachment served by
    [pbs.twimg.com] makes the preview valid and the handler sends nothing. *)
Lemma Preview_attachment_sufficient m att host :
  In att (Message_Attachments m) ->
  hostname (Attachment_URL att) = Some host ->
  strings.HasSuffix host (str "pbs.twimg.com") = true ->
  Preview.hasValidTwitterPreview hostname m = true.
Proof.
  intros Hin Hh Hs. unfold Preview.hasValidTwitterPreview.
  destruct (Preview.anyEmbed hostname (Message_Embeds m)); [reflexivity|].
  rewrite (Preview_anyAttachment_In att); [reflexivity | assumption |].
  unfold Preview.isWorkingTwitterAttachment. rewrite Hh.
  rewrite (Preview_checkHost_listed host (str "pbs.twimg.com")); auto.
  now left.
Qed.

Lemma Preview_attachment_no_reply self m att host :
  In att (Message_Attachments m) ->
  hostname (Attachment_URL att) = Some host ->
  strings.HasSuffix host (str "pbs.twimg.com") = true ->
  Message_Content m <> str "hello" ->
  Preview.messageCreate hostname sendFails self m = [].
Proof.
  intros Hin Hh Hs Hc. unfold Preview.messageCreate.
  destruct (eqs _ self); [reflexivity|].
  destruct (eqs_spec (Message_Content m) (str "hello")); [contradiction|].
  destruct (containsTwitterLink _); [|reflexivity].
  now rewrite (Preview_attachment_sufficient m att host).
Qed.

(** In the revision that knows the markers, a thumbnail whose URL contains
    [tweet_video_thumb] never makes the embed count: the embed is classified
    as it would be without any thumbnail. *)
Lemma Markers_placeholder_thumbnail embed th :
  Embed_Thumbnail embed = Some th ->
  strings.Contains (Thumbnail_URL th) (str "tweet_video_thumb") = true ->
  Markers.isWorkingTwitterEmbed hostname embed
  = Markers.isWorkingTwitterEmbed hostname
      {| Embed_URL := Embed_URL embed; Embed_Type := Embed_Type embed;
         Embed_Title := Embed_Title embed; Embed_Description := Embed_Description embed;
         Embed_Image := Embed_Image embed; Embed_Thumbnail := None |}.
Proof.
  intros Hth Hc. unfold Markers.isWorkingTwitterEmbed. cbn. rewrite Hth.
  unfold Markers.checkThumbnail. rewrite Hc. cbn [orb].
  destruct (negb (eqs (Thumbnail_URL th) [])); [|reflexivity].
  now destruct (hostname (Thumbnail_URL th)).
Qed.

End ClassifierFacts.

(** ** Claims about the handler and the classifier *)

(** C10.  A message from another user whose content is exactly [hello] is
    answered with exactly [world!] and nothing else happens: the handler
    returns before the link branch, so its trace holds the one message (and
    the error line if sending fails), none of the lines the link branch
    logs, and no rewritten text. *)
Theorem hello_is_answered_and_nothing_else
        (hostname : gostring -> option gostring)
        (sendFails : gostring -> gostring -> bool)
        (self : gostring) (m : MessageCreate) :
  User_ID (Message_Author m) <> self ->
  Message_Content m = str "hello" ->
  Main.messageCreate hostname sendFails self m
  = Send (Message_ChannelID m) (str "world!")
    :: (if sendFails (Message_ChannelID m) (str "world!")
        then [Log "Error sending message:"] else []).
Proof.
  intros Ha Hc. unfold Main.messageCreate.
  destruct (eqs_spec (User_ID (Message_Author m)) self); [contradiction|].
  rewrite Hc, eqs_refl. reflexivity.
Qed.

Lemma hello_is_answered_witness :
  Main.messageCreate url.Hostname neverFails (str "bot")
    (messageWith "alice" "hello" [] [])
  = [Send (str "general") (str "world!")].
Proof.
  apply (hello_is_answered_and_nothing_else url.Hostname neverFails (str "bot")
           (messageWith "alice" "hello" [] [])).
  - discriminate.
  - reflexivity.
Defined.

(** C4.  [isTwitterEmbed] of [main.go] has no test of the placeholder
    marker: a thumbnail on [pbs.twimg.com] whose path contains
    [tweet_video_thumb] is counted as a match, and so it is by the revision
    with [hasValidTwitterPreview] that lacks the markers; the revision with
    the markers does not count it. *)
Theorem placeholder_thumbnail_counted_by_main :
  let embed := embedWith "" None (Some "https://pbs.twimg.com/tweet_video_thumb/abc.jpg"%string) in
  Main.isTwitterEmbed url.Hostname embed = true
  /\ Main.hasValidTwitterEmbed url.Hostname [embed] = true
  /\ Preview.isWorkingTwitterEmbed url.Hostname embed = true
  /\ Markers.isWorkingTwitterEmbed url.Hostname embed = false.
Proof. vm_compute. auto. Qed.




(** C6.  [main.go] classifies through [hasValidTwitterEmbed], which is given
    the embeds only: a message with a status link and an attachment served
    by [pbs.twimg.com] gets the rewritten reply.  The revisions with
    [hasValidTwitterPreview] examine the attachment and send nothing. *)
Theorem attachment_ignored_by_main :
  let m := messageWith "alice" "https://twitter.com/user/status/123456" []
             [ {| Attachment_URL := str "https://pbs.twimg.com/media/abc.jpg";
                  Attachment_Filename := str "abc.jpg"; Attachment_Size := 1024 |} ] in
  sends (Main.messageCreate url.Hostname neverFails (str "bot") m)
  = [ (str "general", str "https://fxtwitter.com/user/status/123456") ]
  /\ Preview.hasValidTwitterPreview url.Hostname m = true
  /\ Preview.messageCreate url.Hostname neverFails (str "bot") m = [].
Proof. vm_compute. auto. Qed.

(** ** Claims about the rewriter *)

(** The model computes the expected output on each case of the repository's
    test. *)
Lemma TestModifyTwitterLinks :
  forallb (fun tc => eqs (modifyTwitterLinks (str (fst tc))) (str (snd tc))) testCases = true.
Proof. vm_compute. reflexivity. Qed.

(** No match of the pattern starts in a text without a status link. *)
Lemma scanModify_none_without_link a b :
  ~ containsStatusLink (a ++ b) -> scanModify b = None.
Proof.
  intros H. destruct (scanModify b) as [post|] eqn:E; [|reflexivity].
  exfalso; apply H.
  apply scanModify_inv in E
    as (lt & p & w & d & c & h & e & t & -> & Hh & He & _).
  exists (a ++ (if lt then str "<" else [])), p, w, d, (c :: h), [e], (t ++ post).
  repeat split.
  - now rewrite <- !app_assoc.
  - discriminate.
  - exact Hh.
  - discriminate.
  - now constructor.
Qed.

Lemma modify_without_link text :
  ~ containsStatusLink text -> modifyTwitterLinks text = text.
Proof.
  intros H. rewrite modifyTwitterLinks_unfold. apply replace_no_match.
  intros a b ->. apply matchAt_modify_none.
  now apply (scanModify_none_without_link a).
Qed.

(** C7.  A text without any qualifying status link (scheme, optional
    [www.], [twitter.com] or [x.com], a handle, [/status/] and digits) is
    returned as it is. *)
Theorem no_link_identity (text : gostring) :
  ~ containsStatusLink text -> modifyTwitterLinks text = text.
Proof. exact (modify_without_link text). Qed.

Lemma no_link_identity_witness :
  modifyTwitterLinks (str "Just a regular message") = str "Just a regular message".
Proof.
  apply (no_link_identity (str "Just a regular message")).
  intros (a & p & w & d & h & id & b & E & _).
  unfold statusLink, linkPrefix in E. rewrite <- !app_assoc in E.
  cbn [str list_ascii_of_string] in E.
  do 23 (destruct a as [|? a];
         [ destruct p; discriminate E
         | cbn [app] in E; first [ discriminate E | injection E as _ E ] ]).
Defined.

Lemma blocked_before_link x0 p w d r :
  mem notSlash x0 = true -> blocked (x0 :: linkPrefix p w d ++ r).
Proof.
  intros H. unfold blocked. cbn [dropWhile]. rewrite H.
  destruct p, w, d; reflexivity.
Qed.

Lemma space_barrier c : isSpace c = true -> mem notLtSpace c = false.
Proof.
  unfold isSpace. intros H. cbn [mem notLtSpace] in *. rewrite H.
  now rewrite orb_true_r.
Qed.

Lemma scanModify_space c s : isSpace c = true -> scanModify (c :: s) = None.
Proof.
  unfold isSpace; cbn [mem]. intros H.
  repeat (apply orb_true_iff in H as [H|H]);
    apply Ascii.eqb_eq in H; subst c; reflexivity.
Qed.

(** A status link at the start of the text or after white space is seen by
    the loop, whatever comes before. *)
Lemma modify_linkStart pre p w d h id r :
  linkStart pre ->
  modifyTwitterLinks (pre ++ statusLink p w d h id ++ r)
  = modifyTwitterLinks pre ++ modifyTwitterLinks (statusLink p w d h id ++ r).
Proof.
  intros [->|(pre' & c & -> & Hc)]; [reflexivity|].
  pose proof (space_barrier _ Hc) as Hb.
  rewrite <- app_assoc. cbn [app].
  rewrite modify_app.
  - rewrite (modify_app pre' [c]).
    + rewrite !(modify_step_none c) by now apply scanModify_space.
      rewrite <- app_assoc. reflexivity.
    + exact Hb.
    + unfold blocked. cbn [dropWhile]. now rewrite (barrier_notSlash _ Hb).
  - exact Hb.
  - unfold statusLink. rewrite <- app_assoc.
    apply blocked_before_link, barrier_notSlash, Hb.
Qed.

(** C2.  A status link between [<] and [>], the closing bracket being
    followed by white space, by [<] or by the end of the text (so that the
    match ends with the bracket), is left as it is, brackets and all its
    text [t] up to the bracket included; what precedes and what follows is
    rewritten as if it stood alone. *)
Theorem escaped_link_unchanged (pre : gostring) p w d (h id t post : gostring) :
  isHandle h -> isId id ->
  all (mem notLtSpace) t ->
  stops (mem notLtSpace) post ->
  modifyTwitterLinks (pre ++ str "<" ++ (statusLink p w d h id ++ t) ++ str ">" ++ post)
  = modifyTwitterLinks pre
    ++ str "<" ++ (statusLink p w d h id ++ t) ++ str ">"
    ++ modifyTwitterLinks post.
Proof.
  intros [Hh Hs] [Hid Hd] Ht Hpost.
  rewrite modify_app.
  - now rewrite modify_escaped.
  - reflexivity.
  - unfold statusLink. rewrite <- !app_assoc.
    now apply (blocked_before_link "<"%char).
Qed.

Lemma escaped_link_unchanged_witness :
  modifyTwitterLinks
    (str "Modify this: https://twitter.com/user1/status/123 but not this: <https://x.com/user2/status/456>")
  = str "Modify this: https://fxtwitter.com/user1/status/123 but not this: <https://x.com/user2/status/456>".
Proof.
  apply (escaped_link_unchanged
           (str "Modify this: https://twitter.com/user1/status/123 but not this: ")
           Https false X (str "user2") (str "456") [] []).
  - split; [discriminate | repeat constructor].
  - split; [discriminate | repeat constructor].
  - constructor.
  - exact I.
Defined.

Lemma modify_link_in_context pre p w d h id t q post :
  linkStart pre ->
  isHandle h -> noQuestion h -> isId id ->
  all (mem notLtSpace) t -> noQuestion t -> queryText q ->
  stops (mem notLtSpace) post ->
  modifyTwitterLinks (pre ++ statusLink p w d h id ++ t ++ q ++ post)
  = modifyTwitterLinks pre ++ rewrittenLink d h id ++ t ++ modifyTwitterLinks post.
Proof.
  intros Hpre [Hh Hs] Hq [Hid Hd] Ht Htq Hqq Hpost.
  rewrite modify_linkStart by assumption.
  now rewrite modify_link.
Qed.




(** Every text splits at its first [?]. *)
Lemma beforeQuery_split s :
  exists t q, s = t ++ q /\ noQuestion t /\ isQuery q /\ beforeQuery s = t.
Proof.
  induction s as [|c s (t & q & E & Ht & Hq & _)].
  - exists [], []. repeat split; [intros [] | now left].
  - destruct (Ascii.eqb_spec c "?") as [->|Hc].
    + exists [], ("?"%char :: s). repeat split; [intros [] | right; eauto].
    + assert (Hct : noQuestion (c :: t)) by (intros [H|H]; [congruence | now apply Ht]).
      exists (c :: t), q. repeat split; [now rewrite E | assumption..|].
      rewrite E. destruct Hq as [->|[q' ->]].
      * rewrite app_nil_r. now apply beforeQuery_absent.
      * now apply (beforeQuery_first (c :: t)).
Qed.

Lemma beforeQuery_app l s :
  noQuestion l -> beforeQuery (l ++ s) = l ++ beforeQuery s.
Proof.
  intros Hl. destruct (beforeQuery_split s) as (t & q & -> & Ht & Hq & ->).
  rewrite app_assoc. destruct Hq as [->|[q' ->]].
  - rewrite app_nil_r. apply beforeQuery_absent. now apply noQuestion_app.
  - apply beforeQuery_first. now apply noQuestion_app.
Qed.

Lemma noQuestion_beforeQuery s : noQuestion (beforeQuery s).
Proof. destruct (beforeQuery_split s) as (t & q & _ & Ht & _ & ->). exact Ht. Qed.

Lemma noQuestion_literal (l : gostring) :
  forallb (fun c => negb (Ascii.eqb c "?")) l = true -> noQuestion l.
Proof.
  unfold noQuestion. induction l as [|c l IH]; cbn; [tauto|].
  intros H. apply andb_true_iff in H as [Hc Hl].
  intros [->|Hin]; [discriminate Hc | now apply IH].
Qed.

(** C3, as stated, fails: text that follows the identifier without white
    space stays behind the rewritten link. *)
Lemma rewritten_form_counterexample :
  modifyTwitterLinks (statusLink Https false X (str "user") (str "123") ++ str "/photo/1")
  = rewrittenLink X (str "user") (str "123") ++ str "/photo/1".
Proof. vm_compute. reflexivity. Qed.

(** C3, amended.  Every match that does not begin with [<] is a status
    link, followed by trailing text [t] without [?] and by an optional
    query.  What replaces it has no [?] at all (everything from the first
    [?] on is gone) and begins with [https://], the mirror domain of the
    link's domain and a slash, so never with [www.]; when the handle has no
    [?] it is the canonical link followed by the trailing text [t], hence
    the canonical link alone when the identifier is followed by a query,
    white space, [<] or the end of the text. *)
Theorem rewritten_link_form (s m rest : gostring) :
  matchAt modifyPattern s = Some (m, rest) ->
  strings.HasPrefix m (str "<") = false ->
  exists p w d h id t q,
    m = statusLink p w d h id ++ t ++ q
    /\ isHandle h /\ isId id /\ stops isDigit (t ++ q)
    /\ noQuestion t /\ isQuery q
    /\ noQuestion (replaceMatch m)
    /\ strings.HasPrefix (replaceMatch m) (str "https://" ++ mirror d ++ str "/") = true
    /\ (noQuestion h -> replaceMatch m = rewrittenLink d h id ++ t).
Proof.
  intros Hm Hlt.
  pose proof (matchAt_Some _ _ _ _ Hm) as Es.
  unfold matchAt in Hm. rewrite rmatch_modifyPattern in Hm.
  destruct (scanModify s) as [r|] eqn:E; [|discriminate].
  injection Hm as _ ->.
  apply scanModify_inv in E
    as (lt & p & w & d & c & h & e & t0 & E & Hh & He & Ht0 & Hrest).
  rewrite Es in E.
  assert (Em : m = (if lt then str "<" else []) ++ statusLink p w d (c :: h) [e] ++ t0).
  { apply (app_inv_tail rest). rewrite E. now rewrite <- !app_assoc. }
  destruct lt; [rewrite Em in Hlt; discriminate Hlt|]. cbn [app] in Em.
  destruct (dropWhile_split isDigit t0) as (ds & Et0 & Hds).
  destruct (beforeQuery_split (dropWhile isDigit t0)) as (t & q & Etq & Ht & Hq & _).
  assert (Em' : m = statusLink p w d (c :: h) (e :: ds) ++ t ++ q).
  { rewrite Em, Et0, Etq. unfold statusLink. rewrite <- !app_assoc. reflexivity. }
  assert (Hid : all isDigit (e :: ds)) by now constructor.
  exists p, w, d, (c :: h), (e :: ds), t, q.
  split; [exact Em'|]. split; [split; [discriminate | exact Hh]|].
  split; [split; [discriminate | exact Hid]|].
  split; [rewrite <- Etq; apply dropWhile_stops|].
  split; [exact Ht|]. split; [exact Hq|].
  rewrite Em', replaceMatch_link, modifySingleLink_unfold.
  unfold statusLink at 1 2. rewrite <- !app_assoc.
  rewrite (beforeQuery_app (linkPrefix p w d)) by apply noQuestion_linkPrefix.
  rewrite replaceHost_link.
  split; [|split].
  - apply noQuestion_app; [apply noQuestion_literal; reflexivity|].
    apply noQuestion_app; [destruct d; apply noQuestion_literal; reflexivity|].
    apply noQuestion_app; [apply noQuestion_literal; reflexivity|].
    apply noQuestion_beforeQuery.
  - rewrite !app_assoc. rewrite <- (app_assoc (str "https://")). apply HasPrefix_app.
  - intros Hhq. rewrite <- modifySingleLink_unfold.
    now apply modifySingleLink_link.
Qed.

Lemma rewritten_link_form_witness :
  exists p w d h id t q,
    str "https://x.com/user/status/123/photo/1?s=20"
    = statusLink p w d h id ++ t ++ q
    /\ isHandle h /\ isId id /\ stops isDigit (t ++ q)
    /\ noQuestion t /\ isQuery q
    /\ noQuestion (replaceMatch (str "https://x.com/user/status/123/photo/1?s=20"))
    /\ strings.HasPrefix (replaceMatch (str "https://x.com/user/status/123/photo/1?s=20"))
         (str "https://" ++ mirror d ++ str "/") = true
    /\ (noQuestion h ->
        replaceMatch (str "https://x.com/user/status/123/photo/1?s=20")
        = rewrittenLink d h id ++ t).
Proof.
  apply (rewritten_link_form
           (str "https://x.com/user/status/123/photo/1?s=20 and text")
           (str "https://x.com/user/status/123/photo/1?s=20")
           (str " and text")).
  - reflexivity.
  - reflexivity.
Defined.

(** ** The detection gate *)


Lemma MatchString_true re a b m rest :
  matchAt re b = Some (m, rest) -> MatchString re (a ++ b) = true.
Proof.
  intros H. induction a as [|c a IH]; cbn [app].
  - destruct b; cbn [MatchString]; now rewrite H.
  - cbn [MatchString]. now destruct (matchAt re (c :: a ++ b)).
Qed.

(** What [containsPattern] accepts is a status link whose handle is made of
    word characters. *)
Lemma scanContains_inv s r :
  scanContains s = Some r ->
  exists p w d h id,
    s = statusLink p w d h id ++ r
    /\ h <> [] /\ all (mem wordChar) h /\ isId id.
Proof.
  unfold scanContains.
  destruct (scanHead s) as [s1|] eqn:E1; [|discriminate]. cbn [bind].
  destruct (run1 _ s1) as [s2|] eqn:E2; [|discriminate]. cbn [bind].
  destruct (strip _ s2) as [s3|] eqn:E3; [|discriminate]. cbn [bind].
  intros E4.
  apply scanHead_inv in E1 as (p & w & d & ->).
  apply run1_inv in E2 as (c & h & -> & Hc & Hh & _).
  apply strip_inv in E3 as ->.
  apply run1_inv in E4 as (e & ds & -> & He & Hds & _).
  exists p, w, d, (c :: h), (e :: ds). repeat split.
  - unfold statusLink. now rewrite <- !app_assoc.
  - discriminate.
  - now constructor.
  - discriminate.
  - constructor; [exact He | exact Hds].
Qed.

Lemma all_In p (s : gostring) c : all p s -> In c s -> p c = true.
Proof. intros H Hin. unfold all in H. rewrite Forall_forall in H. now apply H. Qed.


Lemma containsStatusLink_not_hello text :
  containsStatusLink text -> text <> str "hello".
Proof.
  intros (a & p & w & d & h & id & b & -> & _) E.
  apply (f_equal (@length _)) in E.
  unfold statusLink, linkPrefix in E. rewrite !length_app in E.
  destruct p, w, d; cbn in E; lia.
Qed.

Lemma rewritten_differs p w d h id r r' :
  rewrittenLink d h id ++ r <> statusLink p w d h id ++ r'.
Proof. destruct p, w, d; discriminate. Qed.









(** ** Idempotence

    A second pass of the rewriter over its own output finds nothing to do
    when the first pass left no trailing text behind a rewritten link. *)

Section ContextOfAttempt.

(** An attempt that starts before a scheme ([http...://]) and fails would
    also fail in front of any other scheme: the literals of the pattern
    stop at the [h], a handle that runs into the scheme meets [//], and an
    attempt that finds its first digit before the scheme succeeds whatever
    follows. *)

Lemma strip_ctx_first c l d a x0 X :
  ~ In x0 l ->
  strip (c :: l) ((d :: a) ++ x0 :: X) = extend (x0 :: X) (strip (c :: l) (d :: a)).
Proof.
  intros H. cbn [app]. rewrite !strip_cons.
  destruct (Ascii.eqb c d); [|reflexivity]. now apply strip_ctx.
Qed.

Ltac not_in_lit := let H := fresh in intros H; cbn in H; intuition discriminate.

Lemma scanHead_ctx_scheme d a X :
  scanHead ((d :: a) ++ "h"%char :: X) = extend ("h"%char :: X) (scanHead (d :: a)).
Proof.
  unfold scanHead.
  change (str "http") with ("h"%char :: str "ttp").
  rewrite strip_ctx_first by not_in_lit.
  destruct (strip _ (d :: a)) as [a1|]; [|reflexivity]. cbn [extend option_map bind].
  rewrite TrimPrefix_ctx by not_in_lit.
  rewrite strip_ctx by not_in_lit.
  destruct (strip (str "://") _) as [a2|]; [|reflexivity]. cbn [extend option_map bind].
  rewrite TrimPrefix_ctx by not_in_lit.
  rewrite !strip_ctx by not_in_lit.
  destruct (strip (str "twitter.com") _) as [a3|]; cbn [extend option_map bind orElse].
  - now rewrite strip_ctx by not_in_lit.
  - destruct (strip (str "x.com") _) as [a3|]; [|reflexivity].
    cbn [extend option_map bind]. now rewrite strip_ctx by not_in_lit.
Qed.

Lemma handle_ctx_scheme a X :
  blocked ("h"%char :: X) ->
  bind (run1 (mem notSlash) (a ++ "h"%char :: X)) (strip (str "/status/"))
  = extend ("h"%char :: X) (bind (run1 (mem notSlash) a) (strip (str "/status/"))).
Proof.
  intros Hb. unfold blocked in Hb. cbn [dropWhile] in Hb.
  change (mem notSlash "h") with true in Hb. cbv iota in Hb.
  destruct a as [|c a]; cbn [app run1].
  - change (mem notSlash "h") with true. cbv iota. cbn [bind]. now rewrite Hb.
  - destruct (mem notSlash c); [|reflexivity]. cbn [bind].
    rewrite dropWhile_app.
    destruct (dropWhile (mem notSlash) a) as [|e r] eqn:E.
    + cbn [dropWhile]. change (mem notSlash "h") with true. cbv iota. now rewrite Hb.
    + change (e :: r ++ "h"%char :: X) with ((e :: r) ++ "h"%char :: X).
      apply strip_ctx. not_in_lit.
Qed.


Lemma blocked_scheme p Y :
  exists X, schemeStr p ++ Y = "h"%char :: X /\ blocked ("h"%char :: X).
Proof. destruct p; eexists; split; reflexivity. Qed.

End ContextOfAttempt.

Section Idempotence.





End Idempotence.

Section SecondPass.



(** No attempt succeeds from inside the scheme and mirror domain of a
    rewritten link. *)
Lemma no_match_in_mirror d a l T :
  str "https://" ++ mirror d ++ str "/" = a ++ l -> l <> [] ->
  scanModify (l ++ T) = None.
Proof.
  intros E Hl. destruct d; cbn in E;
    do 24 (destruct a as [|? a];
           [ cbn [app] in E; subst l; first [reflexivity | exfalso; now apply Hl]
           | cbn [app] in E; first [discriminate E | injection E as _ E] ]).
Qed.

(** A handle, [/status/] and an identifier never hold two slashes in a
    row. *)
Lemma no_double_slash h id a r :
  all (mem notSlash) h -> all isDigit id ->
  h ++ str "/status/" ++ id <> a ++ "/"%char :: "/"%char :: r.
Proof.
  intros Hh Hid. revert a. induction Hh as [|c h Hc _ IH]; intros a E.
  - cbn [app str list_ascii_of_string] in E.
    do 7 (destruct a as [|? a]; [discriminate E | cbn [app] in E; injection E as _ E]).
    assert (Hin : In "/"%char id).
    { destruct a as [|? a]; cbn [app] in E.
      - injection E as E. rewrite E. now left.
      - injection E as _ E. rewrite E, in_app_iff. right. now left. }
    apply (all_In _ _ _ Hid) in Hin. discriminate Hin.
  - destruct a as [|x a]; cbn [app] in E.
    + injection E as -> _. discriminate Hc.
    + injection E as _ E. now apply (IH a).
Qed.

Lemma afterLink_no_slash Z r : afterLink Z -> Z <> "/"%char :: r.
Proof. intros [->|(c & Z' & -> & Hc)] E; [discriminate E|]. injection E as -> _. discriminate Hc. Qed.

(** A successful attempt starts with a scheme: some characters without
    slash and without white space, then two slashes. *)
Lemma match_needs_double_slash s v :
  scanModify s = Some v ->
  exists x r, s = x ++ "/"%char :: "/"%char :: r
              /\ forall c, In c x -> isSpace c = false.
Proof.
  intros E. apply scanModify_inv in E
    as (lt & p & w & d & c & h & e & t & -> & _).
  unfold statusLink, linkPrefix. rewrite <- !app_assoc.
  destruct lt, p;
    [ exists (str "<http:") | exists (str "<https:") | exists (str "http:") | exists (str "https:") ];
    eexists; (split; [reflexivity|]);
    intros x Hx; cbn in Hx;
    repeat (destruct Hx as [<-|Hx]; [reflexivity|]); contradiction.
Qed.

(** No attempt succeeds from inside the handle, [/status/] and identifier of
    a rewritten link when white space or nothing follows. *)
Lemma no_match_in_body h id l b z Z :
  all (mem notSlash) h -> all isDigit id ->
  h ++ str "/status/" ++ id = (l ++ b) ++ z ->
  afterLink Z ->
  scanModify (b ++ Z) = None.
Proof.
  intros Hh Hid EH HZ.
  destruct (scanModify (b ++ Z)) as [v|] eqn:E; [|reflexivity]. exfalso.
  apply match_needs_double_slash in E as (x & r & E & Hx).
  apply app_eq_app in E as [l2 [[Eb ES]|[Ex EZ]]].
  - destruct l2 as [|c1 [|c2 l2]]; cbn [app] in ES.
    + symmetry in ES. now apply afterLink_no_slash in ES.
    + injection ES as _ ES. symmetry in ES. now apply afterLink_no_slash in ES.
    + injection ES as <- <- _. subst b.
      apply (no_double_slash h id (l ++ x) (l2 ++ z) Hh Hid).
      rewrite EH. rewrite <- !app_assoc. reflexivity.
  - destruct l2 as [|c l2]; cbn [app] in EZ.
    + now apply afterLink_no_slash in EZ.
    + destruct HZ as [->|(c' & Z' & -> & Hc)]; [discriminate EZ|].
      injection EZ as <- _.
      rewrite (Hx c') in Hc; [discriminate Hc|].
      rewrite Ex, in_app_iff. right. now left.
Qed.

Lemma no_match_in_replacement d h id body z a b Z :
  all (mem notSlash) h -> all isDigit id ->
  h ++ str "/status/" ++ id = body ++ z ->
  (str "https://" ++ mirror d ++ str "/") ++ body = a ++ b -> b <> [] ->
  afterLink Z ->
  scanModify (b ++ Z) = None.
Proof.
  intros Hh Hid EH E Hb HZ.
  apply app_eq_app in E as [l [[EK Eb]|[Ea Eb]]].
  - destruct l as [|c l].
    + cbn [app] in Eb. subst b.
      apply (no_match_in_body h id [] body z Z); auto.
    + subst b. rewrite <- app_assoc.
      apply (no_match_in_mirror d a (c :: l)); [exact EK | discriminate].
  - apply (no_match_in_body h id l b z Z); auto. now rewrite <- Eb.
Qed.

End SecondPass.

Lemma modify_skip pre rest :
  (forall a b, pre = a ++ b -> b <> [] -> scanModify (b ++ rest) = None) ->
  modifyTwitterLinks (pre ++ rest) = pre ++ modifyTwitterLinks rest.
Proof.
  intros H. rewrite !modifyTwitterLinks_unfold. apply replace_skip.
  intros a b E Hb. apply matchAt_modify_none. now apply (H a b).
Qed.




Lemma all_cons_inv p c (s : gostring) : all p (c :: s) -> p c = true /\ all p s.
Proof. intros H. inversion H; subst. now split. Qed.




(** * Further properties of the code *)

(** ** The classifiers *)

Section Classifiers.

Variable hostname : gostring -> option gostring.

Lemma anySuffix_iff host cdns :
  anySuffix host cdns = true
  <-> exists cdn, In cdn cdns /\ strings.HasSuffix host cdn = true.
Proof.
  split.
  - induction cdns as [|c cdns IH]; cbn; [discriminate|].
    destruct (strings.HasSuffix host c) eqn:E.
    + intros _. exists c. auto.
    + intros H. destruct (IH H) as (cdn & Hin & Hs). exists cdn. auto.
  - intros (cdn & Hin & Hs). exact (anySuffix_In host cdn cdns Hin Hs).
Qed.

Lemma eqs_nil_false u : negb (eqs u []) = true <-> u <> [].
Proof. destruct (eqs_spec u []); cbn; split; congruence. Qed.

Lemma Main_checkURL_true u :
  Main.checkURL hostname u = Some true <-> servedBy hostname Main.twitterCDNs u.
Proof.
  unfold Main.checkURL, servedBy. split.
  - destruct (negb (eqs u [])) eqn:E; [|discriminate].
    apply eqs_nil_false in E.
    destruct (hostname u) as [host|]; [|discriminate].
    destruct (anySuffix host Main.twitterCDNs) eqn:A; [|discriminate].
    intros _. split; [assumption|].
    apply anySuffix_iff in A as (cdn & Hin & Hs). exists host, cdn. auto.
  - intros (Hne & host & cdn & Hh & Hin & Hs).
    apply eqs_nil_false in Hne. rewrite Hne, Hh.
    now rewrite (anySuffix_In host cdn _ Hin Hs).
Qed.

Lemma Main_checkURL_cases u :
  Main.checkURL hostname u = Some true \/ Main.checkURL hostname u = None.
Proof.
  unfold Main.checkURL.
  destruct (negb (eqs u [])); [|now right].
  destruct (hostname u) as [host|]; [|now right].
  destruct (anySuffix host Main.twitterCDNs); auto.
Qed.

Lemma Main_isTwitterEmbed_served embed :
  Main.isTwitterEmbed hostname embed = true
  <-> exists u, In u (embedURLs embed) /\ servedBy hostname Main.twitterCDNs u.
Proof.
  unfold Main.isTwitterEmbed, embedURLs. split.
  - destruct (Main_checkURL_cases (Embed_URL embed)) as [E|E].
    { intros _. exists (Embed_URL embed). split; [now left|].
      now apply Main_checkURL_true. }
    rewrite E. cbn [orFallThrough].
    destruct (Embed_Image embed) as [img|].
    + destruct (Main_checkURL_cases (Image_URL img)) as [E1|E1].
      { intros _. exists (Image_URL img). split; [right; now left|].
        now apply Main_checkURL_true. }
      rewrite E1. cbn [orFallThrough].
      destruct (Embed_Thumbnail embed) as [th|]; [|discriminate].
      destruct (Main_checkURL_cases (Thumbnail_URL th)) as [E2|E2];
        [|rewrite E2; discriminate].
      intros _. exists (Thumbnail_URL th). split; [right; right; now left|].
      now apply Main_checkURL_true.
    + cbn [orFallThrough].
      destruct (Embed_Thumbnail embed) as [th|]; [|discriminate].
      destruct (Main_checkURL_cases (Thumbnail_URL th)) as [E2|E2];
        [|rewrite E2; discriminate].
      intros _. exists (Thumbnail_URL th). split; [right; now left|].
      now apply Main_checkURL_true.
  - intros (u & Hin & Hs). apply Main_checkURL_true in Hs.
    destruct (Main_checkURL_cases (Embed_URL embed)) as [E|E]; rewrite E;
      [reflexivity|]. cbn [orFallThrough].
    destruct Hin as [<-|Hin]; [congruence|].
    destruct (Embed_Image embed) as [img|]; cbn [orFallThrough app] in *.
    + destruct (Main_checkURL_cases (Image_URL img)) as [E1|E1]; rewrite E1;
        [reflexivity|]. cbn [orFallThrough].
      destruct Hin as [<-|Hin]; [congruence|].
      destruct (Embed_Thumbnail embed) as [th|]; [|contradiction].
      destruct Hin as [<-|[]]. now rewrite Hs.
    + destruct (Embed_Thumbnail embed) as [th|]; [|contradiction].
      destruct Hin as [<-|[]]. now rewrite Hs.
Qed.

Lemma Main_hasValid_In embeds :
  Main.hasValidTwitterEmbed hostname embeds = true
  <-> exists embed, In embed embeds /\ Main.isTwitterEmbed hostname embed = true.
Proof.
  induction embeds as [|e embeds IH]; cbn.
  - split; [discriminate | intros (? & [] & _)].
  - destruct (Main.isTwitterEmbed hostname e) eqn:E.
    + split; [|reflexivity]. intros _. exists e. auto.
    + rewrite IH. split.
      * intros (x & Hin & Hx). exists x. auto.
      * intros (x & [<-|Hin] & Hx); [congruence|]. exists x. auto.
Qed.

End Classifiers.

(** X1.  [isTwitterEmbed] of [main.go] answers [true] exactly when one of
    the embed's URLs (its own, its image's, its thumbnail's) is not empty,
    parses, and has a host name that ends with one of the four listed
    suffixes.  An empty URL, a URL that does not parse and a missing image or
    thumbnail never count and never stop the other URLs from being
    examined. *)
Theorem isTwitterEmbed_characterised
        (hostname : gostring -> option gostring) (embed : MessageEmbed) :
  Main.isTwitterEmbed hostname embed = true
  <-> exists u, In u (embedURLs embed) /\ servedBy hostname Main.twitterCDNs u.
Proof. exact (Main_isTwitterEmbed_served hostname embed). Qed.

(** X2.  [hasValidTwitterEmbed] answers [true] exactly when some embed of
    the list, at any position, has a URL served by one of the four listed
    hosts; in particular it answers [false] for a message without embeds. *)
Theorem hasValidTwitterEmbed_characterised
        (hostname : gostring -> option gostring) (embeds : list MessageEmbed) :
  (Main.hasValidTwitterEmbed hostname embeds = true
   <-> exists embed u, In embed embeds /\ In u (embedURLs embed)
                       /\ servedBy hostname Main.twitterCDNs u)
  /\ Main.hasValidTwitterEmbed hostname [] = false.
Proof.
  split; [|reflexivity].
  rewrite Main_hasValid_In. split.
  - intros (e & Hin & He). apply Main_isTwitterEmbed_served in He as (u & Hu & Hs).
    exists e, u. auto.
  - intros (e & u & Hin & Hu & Hs). exists e. split; [assumption|].
    apply Main_isTwitterEmbed_served. exists u. auto.
Qed.

Section PreviewClassifiers.

Variable hostname : gostring -> option gostring.

Lemma Preview_checkHost_true host :
  Preview.checkHost host = Some true
  <-> exists cdn, In cdn Preview.twitterCDNs /\ strings.HasSuffix host cdn = true.
Proof.
  unfold Preview.checkHost. rewrite <- anySuffix_iff.
  destruct (anySuffix host Preview.twitterCDNs); [split; trivial|].
  destruct (strings.HasSuffix host (str "abs.twimg.com")); split; discriminate.
Qed.

Lemma Preview_checkURL_true u :
  Preview.checkURL hostname u = Some true
  <-> servedBy hostname Preview.twitterCDNs u.
Proof.
  unfold Preview.checkURL, servedBy. split.
  - destruct (negb (eqs u [])) eqn:E; [|discriminate].
    apply eqs_nil_false in E.
    destruct (hostname u) as [host|]; [|discriminate].
    intros H. apply Preview_checkHost_true in H as (cdn & Hin & Hs).
    split; [assumption|]. exists host, cdn. auto.
  - intros (Hne & host & cdn & Hh & Hin & Hs).
    apply eqs_nil_false in Hne. rewrite Hne, Hh.
    apply Preview_checkHost_true. exists cdn. auto.
Qed.

Lemma Preview_embed_served embed :
  Preview.isWorkingTwitterEmbed hostname embed = true ->
  exists u, In u (embedURLs embed) /\ servedBy hostname Preview.twitterCDNs u.
Proof.
  unfold Preview.isWorkingTwitterEmbed, embedURLs.
  destruct (Preview.checkURL hostname (Embed_URL embed)) as [[|]|] eqn:E;
    cbn [orFallThrough]; [|discriminate|].
  { intros _. exists (Embed_URL embed). split; [now left|].
    now apply Preview_checkURL_true. }
  destruct (Embed_Image embed) as [img|].
  - destruct (Preview.checkURL hostname (Image_URL img)) as [[|]|] eqn:E1;
      cbn [orFallThrough]; [|discriminate|].
    { intros _. exists (Image_URL img). split; [right; now left|].
      now apply Preview_checkURL_true. }
    destruct (Embed_Thumbnail embed) as [th|]; [|discriminate].
    destruct (Preview.checkURL hostname (Thumbnail_URL th)) as [[|]|] eqn:E2;
      cbn [orFallThrough]; [|discriminate|discriminate].
    intros _. exists (Thumbnail_URL th). split; [right; right; now left|].
    now apply Preview_checkURL_true.
  - cbn [orFallThrough].
    destruct (Embed_Thumbnail embed) as [th|]; [|discriminate].
    destruct (Preview.checkURL hostname (Thumbnail_URL th)) as [[|]|] eqn:E2;
      cbn [orFallThrough]; [|discriminate|discriminate].
    intros _. exists (Thumbnail_URL th). split; [right; now left|].
    now apply Preview_checkURL_true.
Qed.

Lemma Preview_cdns_listed cdn :
  In cdn Preview.twitterCDNs -> In cdn Main.twitterCDNs.
Proof.
  cbn. intros [H|[H|[H|[]]]]; subst; auto.
Qed.

Lemma Preview_embed_Main embed :
  Preview.isWorkingTwitterEmbed hostname embed = true ->
  Main.isTwitterEmbed hostname embed = true.
Proof.
  intros H. apply Preview_embed_served in H as (u & Hin & Hne & host & cdn & Hh & Hc & Hs).
  apply Main_isTwitterEmbed_served. exists u. split; [assumption|].
  split; [assumption|]. exists host, cdn. auto using Preview_cdns_listed.
Qed.

(** The thumbnail block of the revision with the markers answers as the
    block without them, or [false]. *)
Lemma Markers_checkThumbnail_cases u :
  Markers.checkThumbnail hostname u = Preview.checkURL hostname u
  \/ (Markers.checkThumbnail hostname u = Some false
      /\ (strings.Contains u (str "tweet_video_thumb") = true
          \/ strings.Contains u (str "amplify_video_thumb") = true)).
Proof.
  unfold Markers.checkThumbnail, Preview.checkURL.
  destruct (negb (eqs u [])); [|now left].
  destruct (hostname u) as [host|]; [|now left].
  destruct (strings.Contains u (str "tweet_video_thumb")) eqn:E1; cbn [orb].
  { right. auto. }
  destruct (strings.Contains u (str "amplify_video_thumb")) eqn:E2.
  { right. auto. }
  now left.
Qed.

Lemma Markers_embed_unfold embed :
  Markers.isWorkingTwitterEmbed hostname embed
  = orFallThrough (Preview.checkURL hostname (Embed_URL embed))
      (orFallThrough (match Embed_Image embed with
                      | Some img => Preview.checkURL hostname (Image_URL img)
                      | None => None
                      end)
         (orFallThrough (match Embed_Thumbnail embed with
                         | Some th => Markers.checkThumbnail hostname (Thumbnail_URL th)
                         | None => None
                         end)
            false)).
Proof. reflexivity. Qed.

Lemma Markers_embed_Preview embed :
  Markers.isWorkingTwitterEmbed hostname embed = true ->
  Preview.isWorkingTwitterEmbed hostname embed = true.
Proof.
  rewrite Markers_embed_unfold. unfold Preview.isWorkingTwitterEmbed.
  destruct (Preview.checkURL hostname (Embed_URL embed)) as [b|];
    cbn [orFallThrough]; [trivial|].
  destruct (match Embed_Image embed with
            | Some img => Preview.checkURL hostname (Image_URL img)
            | None => None
            end) as [b|]; cbn [orFallThrough]; [trivial|].
  destruct (Embed_Thumbnail embed) as [th|]; [|trivial].
  destruct (Markers_checkThumbnail_cases (Thumbnail_URL th)) as [->|[-> _]];
    [trivial | discriminate].
Qed.

Lemma Markers_embed_agrees embed :
  (forall th, Embed_Thumbnail embed = Some th ->
              strings.Contains (Thumbnail_URL th) (str "tweet_video_thumb") = false
              /\ strings.Contains (Thumbnail_URL th) (str "amplify_video_thumb") = false) ->
  Markers.isWorkingTwitterEmbed hostname embed
  = Preview.isWorkingTwitterEmbed hostname embed.
Proof.
  intros H. rewrite Markers_embed_unfold. unfold Preview.isWorkingTwitterEmbed.
  destruct (Embed_Thumbnail embed) as [th|]; [|reflexivity].
  destruct (H th eq_refl) as [H1 H2].
  destruct (Markers_checkThumbnail_cases (Thumbnail_URL th)) as [->|[_ [E|E]]];
    [reflexivity | congruence | congruence].
Qed.

Lemma Markers_marked_thumbnail embed th :
  Embed_Thumbnail embed = Some th ->
  strings.Contains (Thumbnail_URL th) (str "tweet_video_thumb") = true
  \/ strings.Contains (Thumbnail_URL th) (str "amplify_video_thumb") = true ->
  Markers.isWorkingTwitterEmbed hostname embed
  = orFallThrough (Preview.checkURL hostname (Embed_URL embed))
      (orFallThrough (match Embed_Image embed with
                      | Some img => Preview.checkURL hostname (Image_URL img)
                      | None => None
                      end)
         false).
Proof.
  intros Hth Hm. rewrite Markers_embed_unfold, Hth.
  unfold Markers.checkThumbnail.
  replace (strings.Contains (Thumbnail_URL th) (str "tweet_video_thumb")
           || strings.Contains (Thumbnail_URL th) (str "amplify_video_thumb"))
    with true by (destruct Hm as [-> | ->]; [reflexivity | now rewrite orb_true_r]).
  destruct (negb (eqs (Thumbnail_URL th) [])); [|reflexivity].
  now destruct (hostname (Thumbnail_URL th)).
Qed.

Lemma Preview_anyEmbed_In embeds :
  Preview.anyEmbed hostname embeds = true
  <-> exists embed, In embed embeds
                    /\ Preview.isWorkingTwitterEmbed hostname embed = true.
Proof.
  induction embeds as [|e embeds IH]; cbn.
  - split; [discriminate | intros (? & [] & _)].
  - destruct (Preview.isWorkingTwitterEmbed hostname e) eqn:E.
    + split; [|reflexivity]. intros _. exists e. auto.
    + rewrite IH. split.
      * intros (x & Hin & Hx). exists x. auto.
      * intros (x & [<-|Hin] & Hx); [congruence|]. exists x. auto.
Qed.

Lemma Preview_anyAttachment_iff atts :
  Preview.anyAttachment hostname atts = true
  <-> exists att, In att atts
                  /\ Preview.isWorkingTwitterAttachment hostname att = true.
Proof.
  induction atts as [|a atts IH]; cbn.
  - split; [discriminate | intros (? & [] & _)].
  - destruct (Preview.isWorkingTwitterAttachment hostname a) eqn:E.
    + split; [|reflexivity]. intros _. exists a. auto.
    + rewrite IH. split.
      * intros (x & Hin & Hx). exists x. auto.
      * intros (x & [<-|Hin] & Hx); [congruence|]. exists x. auto.
Qed.


End PreviewClassifiers.

(** X3.  [isWorkingTwitterAttachment] answers [true] exactly when the
    attachment's URL parses and its host name ends with one of the three
    listed suffixes; the test of [abs.twimg.com] that follows the loop changes
    no answer.  The function is the same in the revision with the markers. *)
Theorem working_attachment_characterised
        (hostname : gostring -> option gostring) (att : MessageAttachment) :
  (Preview.isWorkingTwitterAttachment hostname att = true
   <-> exists host cdn, hostname (Attachment_URL att) = Some host
                        /\ In cdn Preview.twitterCDNs
                        /\ strings.HasSuffix host cdn = true)
  /\ Markers.isWorkingTwitterAttachment hostname att
     = Preview.isWorkingTwitterAttachment hostname att.
Proof.
  split; [|reflexivity].
  unfold Preview.isWorkingTwitterAttachment. split.
  - destruct (hostname (Attachment_URL att)) as [host|]; [|discriminate].
    destruct (Preview.checkHost host) as [[|]|] eqn:E; cbn; try discriminate.
    intros _. apply Preview_checkHost_true in E as (cdn & Hin & Hs).
    exists host, cdn. auto.
  - intros (host & cdn & -> & Hin & Hs).
    now rewrite (Preview_checkHost_listed host cdn Hin Hs).
Qed.

(** X4.  [hasValidTwitterPreview] answers [true] exactly when some embed of
    the message is a working embed or some attachment is a working
    attachment, wherever they stand in their lists. *)
Theorem hasValidTwitterPreview_characterised
        (hostname : gostring -> option gostring) (m : MessageCreate) :
  Preview.hasValidTwitterPreview hostname m = true
  <-> (exists embed, In embed (Message_Embeds m)
                     /\ Preview.isWorkingTwitterEmbed hostname embed = true)
      \/ (exists att, In att (Message_Attachments m)
                      /\ Preview.isWorkingTwitterAttachment hostname att = true).
Proof.
  unfold Preview.hasValidTwitterPreview.
  rewrite <- Preview_anyEmbed_In, <- Preview_anyAttachment_iff.
  destruct (Preview.anyEmbed hostname (Message_Embeds m));
    destruct (Preview.anyAttachment hostname (Message_Attachments m));
    intuition discriminate.
Qed.

(** X5.  Each revision of the embed classifier is stricter than the one
    before: an embed that the revision with the markers counts is counted by
    the revision without them, through a URL served by one of its three
    hosts, and is counted by [isTwitterEmbed] of [main.go]. *)
Theorem classifiers_ordered
        (hostname : gostring -> option gostring) (embed : MessageEmbed) :
  Markers.isWorkingTwitterEmbed hostname embed = true ->
  Preview.isWorkingTwitterEmbed hostname embed = true
  /\ (exists u, In u (embedURLs embed) /\ servedBy hostname Preview.twitterCDNs u)
  /\ Main.isTwitterEmbed hostname embed = true.
Proof.
  intros H. apply Markers_embed_Preview in H.
  split; [assumption|]. split.
  - now apply Preview_embed_served.
  - now apply Preview_embed_Main.
Qed.

Lemma classifiers_ordered_witness :
  let embed := embedWith "https://example.com/post" None
                         (Some "https://pbs.twimg.com/media/abc.jpg"%string) in
  Preview.isWorkingTwitterEmbed url.Hostname embed = true
  /\ Main.isTwitterEmbed url.Hostname embed = true.
Proof.
  intros embed.
  destruct (classifiers_ordered url.Hostname embed) as (H1 & _ & H2).
  - reflexivity.
  - split; assumption.
Defined.

(** X6.  The two revisions with [hasValidTwitterPreview] classify an embed
    alike unless its thumbnail URL contains one of the two markers. *)
Theorem markers_only_difference
        (hostname : gostring -> option gostring) (embed : MessageEmbed) :
  (forall th, Embed_Thumbnail embed = Some th ->
              strings.Contains (Thumbnail_URL th) (str "tweet_video_thumb") = false
              /\ strings.Contains (Thumbnail_URL th) (str "amplify_video_thumb") = false) ->
  Markers.isWorkingTwitterEmbed hostname embed
  = Preview.isWorkingTwitterEmbed hostname embed.
Proof. exact (Markers_embed_agrees hostname embed). Qed.

Lemma markers_only_difference_witness :
  let embed := embedWith "" None (Some "https://pbs.twimg.com/media/abc.jpg"%string) in
  Markers.isWorkingTwitterEmbed url.Hostname embed
  = Preview.isWorkingTwitterEmbed url.Hostname embed.
Proof.
  intros embed. apply (markers_only_difference url.Hostname embed).
  intros th E. injection E as <-. split; reflexivity.
Defined.

(** X7.  In the revision with the markers, a thumbnail whose URL contains
    [tweet_video_thumb] or [amplify_video_thumb], anywhere in the URL, never
    makes the embed count: the answer is the one of the embed's own URL and
    of its image alone. *)
Theorem marked_thumbnail_never_counts
        (hostname : gostring -> option gostring)
        (embed : MessageEmbed) (th : MessageEmbedThumbnail) :
  Embed_Thumbnail embed = Some th ->
  strings.Contains (Thumbnail_URL th) (str "tweet_video_thumb") = true
  \/ strings.Contains (Thumbnail_URL th) (str "amplify_video_thumb") = true ->
  Markers.isWorkingTwitterEmbed hostname embed
  = Markers.isWorkingTwitterEmbed hostname
      {| Embed_URL := Embed_URL embed; Embed_Type := Embed_Type embed;
         Embed_Title := Embed_Title embed; Embed_Description := Embed_Description embed;
         Embed_Image := Embed_Image embed; Embed_Thumbnail := None |}.
Proof.
  intros Hth Hm. rewrite (Markers_marked_thumbnail hostname embed th Hth Hm).
  reflexivity.
Qed.

Lemma marked_thumbnail_never_counts_witness :
  Markers.isWorkingTwitterEmbed url.Hostname
    (embedWith "" None
       (Some "https://pbs.twimg.com/amplify_video_thumb/1/img/abc.jpg"%string))
  = Markers.isWorkingTwitterEmbed url.Hostname (embedWith "" None None).
Proof.
  apply (marked_thumbnail_never_counts url.Hostname
           (embedWith "" None
              (Some "https://pbs.twimg.com/amplify_video_thumb/1/img/abc.jpg"%string))
           {| Thumbnail_URL := str "https://pbs.twimg.com/amplify_video_thumb/1/img/abc.jpg" |}).
  - reflexivity.
  - right. reflexivity.
Defined.

(** ** The gate *)

Lemma MatchString_inv re s :
  MatchString re s = true ->
  exists a b r, s = a ++ b /\ rmatch re b Some = Some r.
Proof.
  induction s as [|c s IH].
  - cbn [MatchString]. unfold matchAt.
    destruct (rmatch re [] Some) as [r|] eqn:E; [|discriminate].
    intros _. exists [], [], r. auto.
  - cbn [MatchString]. unfold matchAt.
    destruct (rmatch re (c :: s) Some) as [r|] eqn:E.
    + intros _. exists [], (c :: s), r. auto.
    + intros H. destruct (IH H) as (a & b & r & -> & Hr).
      exists (c :: a), b, r. auto.
Qed.

Lemma MatchString_scan re a b r :
  rmatch re b Some = Some r -> MatchString re (a ++ b) = true.
Proof.
  intros H. apply (MatchString_true re a b (firstn (length b - length r) b) r).
  unfold matchAt. now rewrite H.
Qed.

Lemma scanContains_link p w d h id b :
  h <> [] -> all (mem wordChar) h -> isId id ->
  exists r, scanContains (statusLink p w d h id ++ b) = Some r.
Proof.
  intros Hne Hh [Hi Hd].
  destruct h as [|c h]; [congruence|]. destruct id as [|e id]; [congruence|].
  apply all_cons_inv in Hh as [Hc Hh]. apply all_cons_inv in Hd as [He Hd].
  unfold scanContains, statusLink. rewrite <- !app_assoc.
  rewrite scanHead_prefix. cbn [bind].
  rewrite (run1_run (mem wordChar) c h) by (assumption || reflexivity).
  cbn [bind]. rewrite strip_app. cbn [bind app run1].
  rewrite range09_digit. unfold isDigit in He. rewrite He. eauto.
Qed.

Lemma gate_accepts text :
  containsTwitterLink text = true
  <-> exists a p w d h id b,
        text = a ++ statusLink p w d h id ++ b
        /\ h <> [] /\ all (mem wordChar) h /\ isId id.
Proof.
  unfold containsTwitterLink. split.
  - intros H. apply MatchString_inv in H as (a & b & r & -> & Hr).
    rewrite rmatch_containsPattern in Hr.
    apply scanContains_inv in Hr as (p & w & d & h & id & -> & Hne & Hw & Hid).
    exists a, p, w, d, h, id, r. auto.
  - intros (a & p & w & d & h & id & b & -> & Hne & Hw & Hid).
    destruct (scanContains_link p w d h id b Hne Hw Hid) as (r & Hr).
    apply (MatchString_scan _ a _ r). now rewrite rmatch_containsPattern.
Qed.

Lemma gate_needs_link text :
  containsTwitterLink text = true -> containsStatusLink text.
Proof.
  intros H. apply gate_accepts in H
    as (a & p & w & d & h & id & b & -> & Hne & Hw & Hid).
  exists a, p, w, d, h, id, b. split; [reflexivity|]. split; [|assumption].
  split; [assumption|]. eapply all_impl; [apply wordChar_notSlash | exact Hw].
Qed.

(** X8.  [containsTwitterLink] answers [true] exactly for the texts that
    contain, at any position, a scheme, an optional [www.], one of the two
    domains, a non-empty handle of letters, digits and underscores,
    [/status/] and at least one digit. *)
Theorem containsTwitterLink_characterised (text : gostring) :
  containsTwitterLink text = true
  <-> exists a p w d h id b,
        text = a ++ statusLink p w d h id ++ b
        /\ h <> [] /\ all (mem wordChar) h /\ isId id.
Proof. exact (gate_accepts text). Qed.

(** ** The handlers *)

Section Handlers.

Variable hostname : gostring -> option gostring.
Variable sendFails : gostring -> gostring -> bool.

Lemma sends_app t1 t2 : sends (t1 ++ t2) = sends t1 ++ sends t2.
Proof.
  induction t1 as [|[ch txt|f] t1 IH]; cbn; [reflexivity | now rewrite IH | exact IH].
Qed.

Lemma sends_sendOrLog ch txt onError :
  sends (sendOrLog sendFails ch txt onError) = [(ch, txt)].
Proof. unfold sendOrLog. cbn. now destruct (sendFails ch txt). Qed.

Lemma sends_logRawEmbeds embeds : sends (Main.logRawEmbeds embeds) = [].
Proof.
  unfold Main.logRawEmbeds. cbn. induction embeds as [|e embeds IH]; cbn; auto.
Qed.

Lemma sends_logEmbedDetails embed : sends (Main.logEmbedDetails embed) = [].
Proof.
  unfold Main.logEmbedDetails.
  now destruct (Embed_Image embed), (Embed_Thumbnail embed).
Qed.

Lemma sends_logTwitterMessage m : sends (Main.logTwitterMessage m) = [].
Proof.
  unfold Main.logTwitterMessage. rewrite sends_app. cbn [sends app].
  induction (Message_Embeds m) as [|e embeds IH]; cbn [flat_map]; [reflexivity|].
  now rewrite sends_app, sends_logEmbedDetails.
Qed.

(** The reply for the rewritten text, if the text has changed. *)
Lemma sends_rewritten (rewrite : gostring -> gostring) ch content onError :
  sends (if negb (eqs (rewrite content) content)
         then sendOrLog sendFails ch (rewrite content) onError else [])
  = if negb (eqs (rewrite content) content) then [(ch, rewrite content)] else [].
Proof.
  destruct (negb (eqs (rewrite content) content)); [apply sends_sendOrLog | reflexivity].
Qed.

Lemma Main_sends self m :
  sends (Main.messageCreate hostname sendFails self m)
  = if eqs (User_ID (Message_Author m)) self then []
    else if eqs (Message_Content m) (str "hello")
    then [(Message_ChannelID m, str "world!")]
    else if containsTwitterLink (Message_Content m)
            && negb (Main.hasValidTwitterEmbed hostname (Message_Embeds m))
            && negb (eqs (modifyTwitterLinks (Message_Content m)) (Message_Content m))
    then [(Message_ChannelID m, modifyTwitterLinks (Message_Content m))]
    else [].
Proof.
  unfold Main.messageCreate.
  destruct (eqs (User_ID (Message_Author m)) self); [reflexivity|].
  destruct (eqs (Message_Content m) (str "hello")); [apply sends_sendOrLog|].
  destruct (containsTwitterLink (Message_Content m)); [|reflexivity].
  rewrite !sends_app, sends_logRawEmbeds, sends_logTwitterMessage.
  cbn [app sends andb].
  destruct (Main.hasValidTwitterEmbed hostname (Message_Embeds m)); [reflexivity|].
  cbn [negb sends andb].
  exact (sends_rewritten modifyTwitterLinks _ _ _).
Qed.

Lemma Preview_sends self m :
  sends (Preview.messageCreate hostname sendFails self m)
  = if eqs (User_ID (Message_Author m)) self then []
    else if eqs (Message_Content m) (str "hello")
    then [(Message_ChannelID m, str "world!")]
    else if containsTwitterLink (Message_Content m)
            && negb (Preview.hasValidTwitterPreview hostname m)
            && negb (eqs (modifyTwitterLinks (Message_Content m)) (Message_Content m))
    then [(Message_ChannelID m, modifyTwitterLinks (Message_Content m))]
    else [].
Proof.
  unfold Preview.messageCreate.
  destruct (eqs (User_ID (Message_Author m)) self); [reflexivity|].
  destruct (eqs (Message_Content m) (str "hello")); [apply sends_sendOrLog|].
  destruct (containsTwitterLink (Message_Content m)); [|reflexivity].
  destruct (Preview.hasValidTwitterPreview hostname m); [reflexivity|].
  cbn [negb andb].
  exact (sends_rewritten modifyTwitterLinks _ _ _).
Qed.

Lemma Ungated_sends (rewrite : gostring -> gostring) self m :
  sends (Ungated.messageCreate sendFails rewrite self m)
  = if eqs (User_ID (Message_Author m)) self then []
    else (if eqs (Message_Content m) (str "hello")
          then [(Message_ChannelID m, str "world!")] else [])
         ++ (if negb (eqs (rewrite (Message_Content m)) (Message_Content m))
             then [(Message_ChannelID m, rewrite (Message_Content m))] else []).
Proof.
  unfold Ungated.messageCreate.
  destruct (eqs (User_ID (Message_Author m)) self); [reflexivity|].
  rewrite sends_app. f_equal.
  - destruct (eqs (Message_Content m) (str "hello")); [apply sends_sendOrLog | reflexivity].
  - exact (sends_rewritten rewrite _ _ _).
Qed.

Lemma Main_reply self m ch txt :
  In (ch, txt) (sends (Main.messageCreate hostname sendFails self m)) ->
  sends (Main.messageCreate hostname sendFails self m) = [(ch, txt)]
  /\ User_ID (Message_Author m) <> self
  /\ ch = Message_ChannelID m
  /\ txt <> Message_Content m
  /\ (txt = str "world!" /\ Message_Content m = str "hello"
      \/ txt = modifyTwitterLinks (Message_Content m)
         /\ containsTwitterLink (Message_Content m) = true
         /\ Main.hasValidTwitterEmbed hostname (Message_Embeds m) = false).
Proof.
  rewrite Main_sends.
  destruct (eqs_spec (User_ID (Message_Author m)) self) as [|Hself]; [contradiction|].
  destruct (eqs_spec (Message_Content m) (str "hello")) as [Hc|Hc].
  - intros [E|[]]. injection E as <- <-.
    split; [reflexivity|]. split; [assumption|]. split; [reflexivity|].
    split; [rewrite Hc; discriminate|]. now left.
  - destruct (containsTwitterLink (Message_Content m)); [|contradiction].
    destruct (Main.hasValidTwitterEmbed hostname (Message_Embeds m)); [contradiction|].
    cbn [negb andb].
    destruct (eqs_spec (modifyTwitterLinks (Message_Content m)) (Message_Content m))
      as [|Hd]; [contradiction|].
    intros [E|[]]. injection E as <- <-.
    split; [reflexivity|]. split; [assumption|]. split; [reflexivity|].
    split; [assumption|]. right. auto.
Qed.

Lemma Main_incl_Ungated self m :
  incl (sends (Main.messageCreate hostname sendFails self m))
       (sends (Ungated.messageCreate sendFails modifyTwitterLinks self m)).
Proof.
  rewrite Main_sends, Ungated_sends.
  destruct (eqs (User_ID (Message_Author m)) self); [apply incl_refl|].
  destruct (eqs (Message_Content m) (str "hello")); [now apply incl_appl, incl_refl|].
  cbn [app].
  destruct (containsTwitterLink (Message_Content m)); [|apply incl_nil_l].
  destruct (Main.hasValidTwitterEmbed hostname (Message_Embeds m)); [apply incl_nil_l|].
  cbn [negb andb].
  destruct (negb (eqs _ _)); apply incl_refl.
Qed.

Lemma Preview_incl_Ungated self m :
  incl (sends (Preview.messageCreate hostname sendFails self m))
       (sends (Ungated.messageCreate sendFails modifyTwitterLinks self m)).
Proof.
  rewrite Preview_sends, Ungated_sends.
  destruct (eqs (User_ID (Message_Author m)) self); [apply incl_refl|].
  destruct (eqs (Message_Content m) (str "hello")); [now apply incl_appl, incl_refl|].
  cbn [app].
  destruct (containsTwitterLink (Message_Content m)); [|apply incl_nil_l].
  destruct (Preview.hasValidTwitterPreview hostname m); [apply incl_nil_l|].
  cbn [negb andb].
  destruct (negb (eqs _ _)); apply incl_refl.
Qed.


End Handlers.

(** X9.  Whatever [messageCreate] of [main.go] sends, it is the only message
    it sends for the event; the event's author is not the bot itself; the
    message goes to the channel of the event; its text differs from the
    event's content; and it is either [world!] in answer to [hello], or the
    rewritten content of a message that passed the gate and has no embed
    counted by [hasValidTwitterEmbed]. *)
Theorem every_reply_is_justified
        (hostname : gostring -> option gostring)
        (sendFails : gostring -> gostring -> bool)
        (self : gostring) (m : MessageCreate) (ch txt : gostring) :
  In (ch, txt) (sends (Main.messageCreate hostname sendFails self m)) ->
  sends (Main.messageCreate hostname sendFails self m) = [(ch, txt)]
  /\ User_ID (Message_Author m) <> self
  /\ ch = Message_ChannelID m
  /\ txt <> Message_Content m
  /\ (txt = str "world!" /\ Message_Content m = str "hello"
      \/ txt = modifyTwitterLinks (Message_Content m)
         /\ containsTwitterLink (Message_Content m) = true
         /\ Main.hasValidTwitterEmbed hostname (Message_Embeds m) = false).
Proof. exact (Main_reply hostname sendFails self m ch txt). Qed.

Lemma every_reply_is_justified_witness :
  let m := messageWith "alice" "see https://x.com/user/status/789012" [] [] in
  sends (Main.messageCreate url.Hostname neverFails (str "bot") m)
  = [(str "general", str "see https://fixupx.com/user/status/789012")]
  /\ str "general" = Message_ChannelID m.
Proof.
  intros m.
  destruct (every_reply_is_justified url.Hostname neverFails (str "bot") m
              (str "general") (str "see https://fixupx.com/user/status/789012"))
    as (H1 & _ & H2 & _).
  - left. reflexivity.
  - split; assumption.
Defined.

(** X10.  The gate and the classifier only ever withhold replies: every
    message that [messageCreate] of [main.go] or of the revision with
    [hasValidTwitterPreview] sends is also sent, for the same event, by the
    earlier handler that rewrites every message. *)
Theorem gated_handlers_send_less
        (hostname : gostring -> option gostring)
        (sendFails : gostring -> gostring -> bool)
        (self : gostring) (m : MessageCreate) :
  incl (sends (Main.messageCreate hostname sendFails self m))
       (sends (Ungated.messageCreate sendFails modifyTwitterLinks self m))
  /\ incl (sends (Preview.messageCreate hostname sendFails self m))
          (sends (Ungated.messageCreate sendFails modifyTwitterLinks self m)).
Proof.
  split; [apply Main_incl_Ungated | apply Preview_incl_Ungated].
Qed.



(** ** The rewriter of [main.go] *)

Lemma noQuestion_suffix a b : noQuestion (a ++ b) -> noQuestion b.
Proof. unfold noQuestion. intros H Hin. apply H, in_or_app. now right. Qed.

Lemma noQuestion_TrimPrefix s l :
  noQuestion s -> noQuestion (strings.TrimPrefix s l).
Proof.
  intros H. destruct (TrimPrefix_cases l s) as [E| ->]; [|exact H].
  rewrite E in H. now apply noQuestion_suffix in H.
Qed.

Lemma noQuestion_replaceHost s : noQuestion s -> noQuestion (replaceHost s).
Proof.
  intros H. unfold replaceHost.
  set (s3 := strings.TrimPrefix
               (strings.TrimPrefix (strings.TrimPrefix s (str "http://")) (str "https://"))
               (str "www.")).
  assert (H3 : noQuestion s3) by (unfold s3; auto using noQuestion_TrimPrefix).
  destruct (strings.HasPrefix s3 (str "twitter.com")).
  { apply noQuestion_app; [now apply noQuestion_literal | now apply noQuestion_TrimPrefix]. }
  destruct (strings.HasPrefix s3 (str "x.com")); [|exact H3].
  apply noQuestion_app; [now apply noQuestion_literal | now apply noQuestion_TrimPrefix].
Qed.

(** X12.  Whatever [modifySingleLink] is given, its result has no [?]: the
    text is cut at its first [?] before anything else is done, and the steps
    that follow only remove a prefix or put a constant in its place. *)
Theorem modifySingleLink_has_no_query (link : gostring) :
  noQuestion (modifySingleLink link).
Proof.
  rewrite modifySingleLink_unfold.
  apply noQuestion_replaceHost, noQuestion_beforeQuery.
Qed.






Lemma modify_mirror pre d h id post :
  linkStart pre -> isHandle h -> isId id -> afterLink post ->
  modifyTwitterLinks (pre ++ rewrittenLink d h id ++ post)
  = modifyTwitterLinks pre ++ rewrittenLink d h id ++ modifyTwitterLinks post.
Proof.
  intros Hpre [Hh Hs] [Hid Hd] Hpost.
  assert (E : modifyTwitterLinks (rewrittenLink d h id ++ post)
              = rewrittenLink d h id ++ modifyTwitterLinks post).
  { apply modify_skip. intros a b Eab Hb.
    apply (no_match_in_replacement d h id (h ++ str "/status/" ++ id) [] a b post);
      auto.
    - now rewrite app_nil_r.
    - rewrite <- Eab. unfold rewrittenLink. now rewrite <- !app_assoc. }
  destruct Hpre as [->|(pre' & c & -> & Hc)]; [exact E|].
  pose proof (space_barrier _ Hc) as Hb.
  rewrite <- app_assoc. cbn [app].
  rewrite modify_app.
  - rewrite (modify_app pre' [c]).
    + rewrite !(modify_step_none c) by now apply scanModify_space.
      rewrite E. rewrite <- app_assoc. reflexivity.
    + exact Hb.
    + unfold blocked. cbn [dropWhile]. now rewrite (barrier_notSlash _ Hb).
  - exact Hb.
  - unfold blocked. cbn [dropWhile]. rewrite (barrier_notSlash _ Hb).
    reflexivity.
Qed.

(** X14.  A link that is already on a mirror domain, standing at the start
    of the text or after white space and followed by white space or the end
    of the text, is left as it is, and so is its place in the text: what
    precedes and what follows it is rewritten as if it stood alone. *)
Theorem mirror_link_is_left_alone (pre : gostring) d (h id post : gostring) :
  linkStart pre -> isHandle h -> isId id -> afterLink post ->
  modifyTwitterLinks (pre ++ rewrittenLink d h id ++ post)
  = modifyTwitterLinks pre ++ rewrittenLink d h id ++ modifyTwitterLinks post.
Proof. exact (modify_mirror pre d h id post). Qed.

Lemma mirror_link_is_left_alone_witness :
  modifyTwitterLinks (str "old https://fxtwitter.com/user/status/123 new https://x.com/a/status/4")
  = str "old https://fxtwitter.com/user/status/123 new https://fixupx.com/a/status/4".
Proof.
  apply (mirror_link_is_left_alone (str "old ") Twitter (str "user") (str "123")
           (str " new https://x.com/a/status/4")).
  - right. exists (str "old"), " "%char. split; reflexivity.
  - split; [discriminate | repeat constructor].
  - split; [discriminate | repeat constructor].
  - right. exists " "%char, (str "new https://x.com/a/status/4"). split; reflexivity.
Defined.

(** ** The links that are logged ([extractTwitterLinks]) *)

Theorem rmatch_linkPattern s :
  rmatch linkPattern s Some = scanLink s.
Proof.
  change linkPattern with
    (headRe (Cat (Plus notSlash)
               (Cat (lit (str "/status/")) (Cat (Plus Digit) Eps)))).
  unfold scanLink. rewrite rmatch_headRe.
  destruct (scanHead _) as [s1|]; [|reflexivity]. cbn [bind].
  rewrite rmatch_Cat. rewrite rmatch_Plus_forced.
  2:{ intros c s' Hc. rewrite rmatch_Cat, rmatch_lit_strip.
      unfold strip; simpl. apply notSlash_spec in Hc.
      destruct (Ascii.eqb_spec "/" c); [congruence | reflexivity]. }
  destruct (run1 _ s1) as [s2|]; [|reflexivity]. cbn [bind].
  rewrite rmatch_Cat, rmatch_lit_strip.
  destruct (strip _ s2) as [s3|]; [|reflexivity]. cbn [bind].
  rewrite rmatch_Cat. apply rmatch_Plus_longest. reflexivity.
Qed.

(** What [linkPattern] accepts is a status link with all the digits that
    follow [/status/]. *)
Lemma scanLink_inv s r :
  scanLink s = Some r ->
  exists p w d h id,
    s = statusLink p w d h id ++ r
    /\ isHandle h /\ isId id /\ stops isDigit r.
Proof.
  unfold scanLink.
  destruct (scanHead s) as [s1|] eqn:E1; [|discriminate]. cbn [bind].
  destruct (run1 _ s1) as [s2|] eqn:E2; [|discriminate]. cbn [bind].
  destruct (strip _ s2) as [s3|] eqn:E3; [|discriminate]. cbn [bind].
  intros E4.
  apply scanHead_inv in E1 as (p & w & d & ->).
  apply run1_inv in E2 as (c & h & -> & Hc & Hh & _).
  apply strip_inv in E3 as ->.
  apply run1_inv in E4 as (e & ds & -> & He & Hds & Hr).
  exists p, w, d, (c :: h), (e :: ds).
  split; [unfold statusLink; now rewrite <- !app_assoc|].
  split; [split; [discriminate | now constructor]|].
  split; [split; [discriminate | now constructor]|].
  exact Hr.
Qed.

Lemma scanLink_link p w d h id b :
  isHandle h -> isId id -> stops isDigit b ->
  scanLink (statusLink p w d h id ++ b) = Some b.
Proof.
  intros [Hne Hh] [Hi Hd] Hb.
  destruct h as [|c h]; [congruence|]. destruct id as [|e id]; [congruence|].
  apply all_cons_inv in Hh as [Hc Hh]. apply all_cons_inv in Hd as [He Hd].
  unfold scanLink, statusLink. rewrite <- !app_assoc.
  rewrite scanHead_prefix. cbn [bind].
  rewrite (run1_run (mem notSlash) c h) by (assumption || apply stops_slash).
  cbn [bind]. rewrite strip_app. cbn [bind].
  now apply (run1_run (mem Digit) e id).
Qed.

(** A status link somewhere in the text is matched there, with the digits
    that follow it. *)
Lemma scanLink_somewhere p w d h id b :
  isHandle h -> isId id ->
  exists r, scanLink (statusLink p w d h id ++ b) = Some r.
Proof.
  intros Hh [Hi Hd].
  destruct (dropWhile_split isDigit b) as (m & Eb & Hm).
  exists (dropWhile isDigit b). rewrite Eb at 1.
  replace (statusLink p w d h id ++ m ++ dropWhile isDigit b)
    with (statusLink p w d h (id ++ m) ++ dropWhile isDigit b)
    by (unfold statusLink; now rewrite <- !app_assoc).
  apply scanLink_link; [exact Hh | | apply dropWhile_stops].
  split; [destruct id; [congruence | discriminate] | now apply all_app].
Qed.

Lemma scanLink_nonempty s r : scanLink s = Some r -> exists c m, s = (c :: m) ++ r.
Proof.
  intros H. apply scanLink_inv in H as (p & w & d & h & id & -> & _).
  destruct (statusLink_cons p w d h id) as [m ->]. eauto.
Qed.

Lemma matchAt_link_some m rest :
  scanLink (m ++ rest) = Some rest -> matchAt linkPattern (m ++ rest) = Some (m, rest).
Proof. intros H. apply matchAt_app. now rewrite rmatch_linkPattern. Qed.

Lemma matchAt_link_none s :
  scanLink s = None -> matchAt linkPattern s = None.
Proof. intros H. apply matchAt_None. now rewrite rmatch_linkPattern. Qed.

Lemma matchAt_link_inv s m rest :
  matchAt linkPattern s = Some (m, rest) -> scanLink s = Some rest.
Proof.
  unfold matchAt. rewrite rmatch_linkPattern.
  destruct (scanLink s); [|discriminate]. now intros [= _ ->].
Qed.

Section FindLoop.

Variable re : regex.

Lemma findLoop_In : forall n s l,
  length s <= n -> In l (findLoop n re s) ->
  exists a rest, s = a ++ l ++ rest /\ matchAt re (l ++ rest) = Some (l, rest).
Proof.
  induction n as [|n IH]; intros s l Hn; [contradiction|].
  destruct s as [|c s]; [contradiction|]. cbn [findLoop].
  cbn [length] in Hn.
  assert (Hskip : In l (findLoop n re s) ->
                  exists a rest, c :: s = a ++ l ++ rest
                                 /\ matchAt re (l ++ rest) = Some (l, rest)).
  { intros H. destruct (IH s l) as (a & rest & -> & Hm); [lia | exact H |].
    exists (c :: a), rest. auto. }
  destruct (matchAt re (c :: s)) as [[[|c' m] rest]|] eqn:E; try exact Hskip.
  intros [<-|Hin].
  - exists [], rest. pose proof (matchAt_Some _ _ _ _ E) as Es.
    split; [exact Es | now rewrite <- Es].
  - pose proof (matchAt_shorter _ _ _ _ _ E) as Hlen. cbn [length] in Hlen.
    destruct (IH rest l) as (a & rest' & -> & Hm); [lia | exact Hin |].
    exists ((c' :: m) ++ a), rest'. rewrite <- app_assoc.
    split; [exact (matchAt_Some _ _ _ _ E) | exact Hm].
Qed.

Hypothesis nonempty : forall s rest, matchAt re s <> Some ([], rest).

Lemma findLoop_nil : forall n s,
  length s <= n ->
  (findLoop n re s = [] <-> forall a b, s = a ++ b -> matchAt re b = None).
Proof.
  assert (Hnil : matchAt re [] = None).
  { destruct (matchAt re []) as [[m rest]|] eqn:E; [|reflexivity].
    pose proof (matchAt_Some _ _ _ _ E) as Es.
    symmetry in Es. apply app_eq_nil in Es as [-> ->]. now apply nonempty in E. }
  induction n as [|n IH]; intros s Hn.
  - destruct s; [|cbn in Hn; lia]. split; [|reflexivity].
    intros _ a b E. symmetry in E. apply app_eq_nil in E as [_ ->]. exact Hnil.
  - destruct s as [|c s].
    { split; [|reflexivity].
      intros _ a b E. symmetry in E. apply app_eq_nil in E as [_ ->]. exact Hnil. }
    cbn [findLoop]. cbn [length] in Hn.
    destruct (matchAt re (c :: s)) as [[[|c' m] rest]|] eqn:E.
    + now apply nonempty in E.
    + split; [discriminate|]. intros H. now rewrite (H [] (c :: s)) in E.
    + rewrite IH by lia. split.
      * intros H [|x a] b Eab; cbn [app] in Eab.
        -- now subst b.
        -- injection Eab as _ ->. now apply (H a b).
      * intros H a b ->. now apply (H (c :: a) b).
Qed.

End FindLoop.

Lemma linkPattern_nonempty s rest : matchAt linkPattern s <> Some ([], rest).
Proof.
  intros H. pose proof (matchAt_Some _ _ _ _ H) as Es. cbn [app] in Es. subst s.
  apply matchAt_link_inv in H. apply scanLink_nonempty in H as (c & m & E).
  apply (f_equal (@length _)) in E. rewrite length_app in E. cbn in E. lia.
Qed.

Lemma extract_In text l :
  In l (extractTwitterLinks text) ->
  exists a p w d h id b,
    text = a ++ l ++ b /\ l = statusLink p w d h id
    /\ isHandle h /\ isId id /\ stops isDigit b.
Proof.
  intros H. apply findLoop_In in H as (a & rest & -> & Hm); [|reflexivity].
  pose proof (matchAt_link_inv _ _ _ Hm) as Hs.
  apply scanLink_inv in Hs as (p & w & d & h & id & E & Hh & Hid & Hr).
  apply app_inv_tail in E. exists a, p, w, d, h, id, rest. auto.
Qed.

Lemma extract_nil text :
  extractTwitterLinks text = [] <-> ~ containsStatusLink text.
Proof.
  unfold extractTwitterLinks, FindAllString.
  rewrite (findLoop_nil linkPattern linkPattern_nonempty) by reflexivity.
  split.
  - intros H (a & p & w & d & h & id & b & -> & Hh & Hid).
    destruct (scanLink_somewhere p w d h id b Hh Hid) as (r & Hr).
    specialize (H a _ eq_refl). unfold matchAt in H.
    rewrite rmatch_linkPattern, Hr in H. discriminate H.
  - intros H a b ->. apply matchAt_link_none.
    destruct (scanLink b) as [r|] eqn:E; [|reflexivity]. exfalso. apply H.
    apply scanLink_inv in E as (p & w & d & h & id & -> & Hh & Hid & _).
    exists a, p, w, d, h, id, r. auto.
Qed.

(** X15.  Every string [extractTwitterLinks] returns is a piece of the text,
    and it is a status link: scheme, optional [www.], one of the two domains,
    a handle without slash, [/status/] and all the digits that follow (the
    text goes on with something that is not a digit, or ends). *)
Theorem extracted_links_are_status_links (text l : gostring) :
  In l (extractTwitterLinks text) ->
  exists a p w d h id b,
    text = a ++ l ++ b /\ l = statusLink p w d h id
    /\ isHandle h /\ isId id /\ stops isDigit b.
Proof. exact (extract_In text l). Qed.

Lemma extracted_links_are_status_links_witness :
  exists a p w d h id b,
    str "a https://x.com/u/status/12? b" = a ++ str "https://x.com/u/status/12" ++ b
    /\ str "https://x.com/u/status/12" = statusLink p w d h id
    /\ isHandle h /\ isId id /\ stops isDigit b.
Proof.
  apply (extracted_links_are_status_links
           (str "a https://x.com/u/status/12? b") (str "https://x.com/u/status/12")).
  left. reflexivity.
Defined.

(** X16.  [extractTwitterLinks] returns no link exactly when the text
    contains no status link. *)
Theorem no_link_extracted_iff_none (text : gostring) :
  extractTwitterLinks text = [] <-> ~ containsStatusLink text.
Proof. exact (extract_nil text). Qed.

(** X17.  A text that [containsTwitterLink] accepts has at least one link
    for [extractTwitterLinks] to return: the log of the revision that uses
    both is never empty for a message that passed the gate. *)
Theorem gate_implies_extracted_link (text : gostring) :
  containsTwitterLink text = true -> extractTwitterLinks text <> [].
Proof.
  intros H E. apply extract_nil in E. now apply E, gate_needs_link.
Qed.

Lemma gate_implies_extracted_link_witness :
  extractTwitterLinks (str "see https://twitter.com/user_1/status/42") <> [].
Proof.
  apply (gate_implies_extracted_link (str "see https://twitter.com/user_1/status/42")).
  reflexivity.
Defined.

(** ** The first revision of the rewriter *)

Section FirstRevision.

Lemma First_unfold content :
  First.modifyTwitterLinks content
  = ReplaceAllStringFunc linkPattern content firstReplace.
Proof. reflexivity. Qed.

Lemma Index_miss c s sub :
  strings.Index s sub = (-1)%Z ->
  strings.HasPrefix (c :: s) sub = false ->
  strings.Index (c :: s) sub = (-1)%Z.
Proof. intros Hs H. cbn [strings.Index]. now rewrite H, Hs. Qed.

Lemma Index_no_dot s :
  ~ In "."%char s -> strings.Index s (str "twitter.com") = (-1)%Z.
Proof.
  induction s as [|c s IH]; intros H; [reflexivity|].
  apply Index_miss.
  - apply IH. intros Hin. apply H. now right.
  - destruct (strings.HasPrefix (c :: s) (str "twitter.com")) eqn:E; [|reflexivity].
    exfalso. apply H. apply HasPrefix_inv in E. rewrite E.
    cbn. do 7 right. now left.
Qed.

Lemma firstReplace_twitter p w r :
  firstReplace (schemeStr p ++ wwwStr w ++ str "twitter.com" ++ r)
  = schemeStr p ++ wwwStr w ++ str "fxtwitter.com" ++ r.
Proof. destruct p, w; reflexivity. Qed.

Lemma firstReplace_x p w r :
  ~ In "."%char r ->
  firstReplace (schemeStr p ++ wwwStr w ++ str "x.com/" ++ r)
  = schemeStr p ++ wwwStr w ++ str "fixupx.com/" ++ r.
Proof.
  intros H. unfold firstReplace.
  assert (E : strings.Contains (schemeStr p ++ wwwStr w ++ str "x.com/" ++ r)
                               (str "twitter.com") = false).
  { unfold strings.Contains.
    replace (strings.Index (schemeStr p ++ wwwStr w ++ str "x.com/" ++ r)
                           (str "twitter.com")) with (-1)%Z; [reflexivity|].
    symmetry.
    destruct p, w; cbn [schemeStr wwwStr str list_ascii_of_string app];
      repeat (apply Index_miss; [|reflexivity]);
      exact (Index_no_dot r H). }
  rewrite E. destruct p, w; reflexivity.
Qed.

Lemma no_dot_status h id :
  ~ In "."%char h -> all isDigit id -> ~ In "."%char (h ++ str "/status/" ++ id).
Proof.
  intros Hh Hd Hin. apply in_app_or in Hin as [Hin|Hin]; [now apply Hh|].
  apply in_app_or in Hin as [Hin|Hin].
  - cbn in Hin. repeat (destruct Hin as [Hin|Hin]; [discriminate Hin|]). exact Hin.
  - pose proof (all_In _ _ _ Hd Hin) as Hc. discriminate Hc.
Qed.

Lemma firstReplace_link p w d h id :
  all isDigit id -> (d = X -> ~ In "."%char h) ->
  firstReplace (statusLink p w d h id)
  = schemeStr p ++ wwwStr w ++ mirror d ++ str "/" ++ h ++ str "/status/" ++ id.
Proof.
  intros Hd Hx. unfold statusLink, linkPrefix. rewrite <- !app_assoc.
  destruct d.
  - apply firstReplace_twitter.
  - apply (firstReplace_x p w (h ++ str "/status/" ++ id)).
    apply no_dot_status; auto.
Qed.

Lemma scanLink_ctx c a Y :
  blocked ("h"%char :: Y) ->
  scanLink ((c :: a) ++ "h"%char :: Y) = extend ("h"%char :: Y) (scanLink (c :: a)).
Proof.
  intros Hb. unfold scanLink.
  rewrite scanHead_ctx_scheme.
  destruct (scanHead (c :: a)) as [a1|]; [|reflexivity]. cbn [extend option_map bind].
  set (D := fun s : gostring => run1 (mem Digit) s).
  rewrite (bind_assoc (run1 (mem notSlash) (a1 ++ "h"%char :: Y))
             (strip (str "/status/")) D).
  rewrite (bind_assoc (run1 (mem notSlash) a1) (strip (str "/status/")) D).
  rewrite handle_ctx_scheme by assumption.
  destruct (bind (run1 (mem notSlash) a1) (strip (str "/status/"))) as [a3|];
    [|reflexivity].
  cbn [bind extend option_map]. unfold D.
  destruct a3 as [|e a3]; cbn [app run1]; [reflexivity|].
  destruct (mem Digit e); [|reflexivity]. cbn [extend option_map]. f_equal.
  now apply dropWhile_app_stops.
Qed.

Lemma First_step_match c m rest :
  scanLink ((c :: m) ++ rest) = Some rest ->
  First.modifyTwitterLinks ((c :: m) ++ rest)
  = firstReplace (c :: m) ++ First.modifyTwitterLinks rest.
Proof.
  intros H. rewrite !First_unfold. apply replace_step_match.
  now apply matchAt_link_some.
Qed.

Lemma First_step_none c s :
  scanLink (c :: s) = None ->
  First.modifyTwitterLinks (c :: s) = c :: First.modifyTwitterLinks s.
Proof.
  intros H. rewrite !First_unfold. apply replace_step_none.
  now apply matchAt_link_none.
Qed.

(** The first revision works on both sides of the start of a scheme
    independently. *)
Lemma First_app a Y :
  blocked ("h"%char :: Y) ->
  First.modifyTwitterLinks (a ++ "h"%char :: Y)
  = First.modifyTwitterLinks a ++ First.modifyTwitterLinks ("h"%char :: Y).
Proof.
  intros Hb.
  remember (length a) as n eqn:Hn.
  revert a Hn; induction n as [n IH] using lt_wf_ind; intros a Hn.
  destruct a as [|c a]; [reflexivity|].
  destruct (scanLink (c :: a)) as [r|] eqn:E.
  - pose proof (scanLink_nonempty _ _ E) as (d & m & Es).
    assert (Ec : scanLink ((d :: m) ++ r ++ "h"%char :: Y) = Some (r ++ "h"%char :: Y)).
    { rewrite app_assoc, <- Es. rewrite scanLink_ctx by assumption. now rewrite E. }
    rewrite Es in E |- *. rewrite <- app_assoc.
    rewrite (First_step_match _ _ _ Ec), (First_step_match _ _ _ E).
    rewrite <- app_assoc. f_equal.
    apply (IH (length r)); [|reflexivity].
    subst n. rewrite Es, length_app. cbn. lia.
  - cbn [app].
    assert (Ec : scanLink (c :: a ++ "h"%char :: Y) = None).
    { change (c :: a ++ "h"%char :: Y) with ((c :: a) ++ "h"%char :: Y).
      rewrite scanLink_ctx by assumption. now rewrite E. }
    rewrite (First_step_none _ _ Ec), (First_step_none _ _ E).
    cbn [app]. f_equal. apply (IH (length a)); [subst n; cbn; lia | reflexivity].
Qed.

Lemma First_link pre p w d h id post :
  isHandle h -> isId id -> stops isDigit post ->
  (d = X -> ~ In "."%char h) ->
  First.modifyTwitterLinks (pre ++ statusLink p w d h id ++ post)
  = First.modifyTwitterLinks pre
    ++ (schemeStr p ++ wwwStr w ++ mirror d ++ str "/" ++ h ++ str "/status/" ++ id)
    ++ First.modifyTwitterLinks post.
Proof.
  intros Hh Hid Hpost Hx.
  pose proof (scanLink_link p w d h id post Hh Hid Hpost) as E.
  unfold statusLink at 1. unfold linkPrefix. rewrite <- !app_assoc.
  destruct (blocked_scheme p
              (wwwStr w ++ domainStr d ++ str "/" ++ h ++ str "/status/" ++ id ++ post))
    as (Y & EY & Hb).
  rewrite EY, (First_app pre Y Hb), <- EY. f_equal.
  destruct (statusLink_cons p w d h id) as [m Hm].
  replace (schemeStr p ++ wwwStr w ++ domainStr d ++ str "/" ++ h ++ str "/status/" ++ id ++ post)
    with (statusLink p w d h id ++ post)
    by (unfold statusLink, linkPrefix; now rewrite <- !app_assoc).
  rewrite Hm in E |- *.
  rewrite (First_step_match _ _ _ E), <- Hm.
  rewrite firstReplace_link by (destruct Hid; auto).
  now rewrite <- !app_assoc.
Qed.

End FirstRevision.

(** X18.  The first revision of [modifyTwitterLinks] rewrites a status link
    wherever it stands, whatever precedes it: the scheme and [www.] are
    kept, the domain is replaced by its mirror, and the match ends with the
    last digit, so a query or any other text after the identifier is copied.
    For [x.com] this holds when the handle has no dot; the closure looks for
    [twitter.com] anywhere in the match first. *)
Theorem first_revision_rewrites_link
        (pre : gostring) p w d (h id post : gostring) :
  isHandle h -> isId id -> stops isDigit post ->
  (d = X -> ~ In "."%char h) ->
  First.modifyTwitterLinks (pre ++ statusLink p w d h id ++ post)
  = First.modifyTwitterLinks pre
    ++ (schemeStr p ++ wwwStr w ++ mirror d ++ str "/" ++ h ++ str "/status/" ++ id)
    ++ First.modifyTwitterLinks post.
Proof. exact (First_link pre p w d h id post). Qed.

Lemma first_revision_rewrites_link_witness :
  First.modifyTwitterLinks (str "(http://www.x.com/user/status/789012?s=20)")
  = str "(http://www.fixupx.com/user/status/789012?s=20)".
Proof.
  apply (first_revision_rewrites_link (str "(") Http true X
           (str "user") (str "789012") (str "?s=20)")).
  - split; [discriminate | repeat constructor].
  - split; [discriminate | repeat constructor].
  - reflexivity.
  - intros _ H. cbn in H. repeat (destruct H as [H|H]; [discriminate H|]). exact H.
Defined.

(** ** The handler of the revision with the markers *)

Section MarkersHandler.

Variable hostname : gostring -> option gostring.
Variable sendFails : gostring -> gostring -> bool.

Lemma sends_logs (f : gostring -> list event) (l : list gostring) :
  (forall x, sends (f x) = []) -> sends (flat_map f l) = [].
Proof.
  intros H. induction l as [|x l IH]; cbn [flat_map]; [reflexivity|].
  now rewrite sends_app, H, IH.
Qed.

Lemma sends_logEmbed embed : sends (Markers.logEmbed embed) = [].
Proof.
  unfold Markers.logEmbed.
  now destruct (Embed_Image embed), (Embed_Thumbnail embed).
Qed.

Lemma sends_Markers_log m : sends (Markers.logTwitterMessage m) = [].
Proof.
  unfold Markers.logTwitterMessage. apply sends_logs. intros _.
  rewrite !sends_app. cbn [sends app].
  assert (E1 : sends (flat_map Markers.logEmbed (Message_Embeds m)) = []).
  { induction (Message_Embeds m) as [|e l IH]; cbn [flat_map]; [reflexivity|].
    now rewrite sends_app, sends_logEmbed, IH. }
  assert (E2 : sends (flat_map Markers.logAttachment (Message_Attachments m)) = []).
  { induction (Message_Attachments m) as [|e l IH]; cbn [flat_map]; [reflexivity|].
    now rewrite sends_app, IH. }
  now rewrite E1, E2.
Qed.

Lemma Markers_sends self m :
  sends (Markers.messageCreate hostname sendFails self m)
  = if eqs (User_ID (Message_Author m)) self then []
    else if eqs (Message_Content m) (str "hello")
    then [(Message_ChannelID m, str "world!")]
    else if containsTwitterLink (Message_Content m)
            && negb (Markers.hasValidTwitterPreview hostname m)
            && negb (eqs (modifyTwitterLinks (Message_Content m)) (Message_Content m))
    then [(Message_ChannelID m, modifyTwitterLinks (Message_Content m))]
    else [].
Proof.
  unfold Markers.messageCreate.
  destruct (eqs (User_ID (Message_Author m)) self); [reflexivity|].
  destruct (eqs (Message_Content m) (str "hello")); [apply sends_sendOrLog|].
  destruct (containsTwitterLink (Message_Content m)); [|reflexivity].
  rewrite sends_app, sends_Markers_log. cbn [app andb].
  destruct (Markers.hasValidTwitterPreview hostname m); [reflexivity|].
  cbn [negb andb].
  exact (sends_rewritten sendFails modifyTwitterLinks _ _ _).
Qed.

Lemma Markers_anyEmbed_Preview embeds :
  Markers.anyEmbed hostname embeds = true -> Preview.anyEmbed hostname embeds = true.
Proof.
  induction embeds as [|e embeds IH]; cbn; [discriminate|].
  destruct (Markers.isWorkingTwitterEmbed hostname e) eqn:E.
  - now rewrite (Markers_embed_Preview hostname e E).
  - intros H. rewrite (IH H). now destruct (Preview.isWorkingTwitterEmbed hostname e).
Qed.

Lemma Markers_anyEmbed_agrees embeds :
  (forall embed th, In embed embeds -> Embed_Thumbnail embed = Some th ->
     strings.Contains (Thumbnail_URL th) (str "tweet_video_thumb") = false
     /\ strings.Contains (Thumbnail_URL th) (str "amplify_video_thumb") = false) ->
  Markers.anyEmbed hostname embeds = Preview.anyEmbed hostname embeds.
Proof.
  induction embeds as [|e embeds IH]; intros H; cbn; [reflexivity|].
  rewrite (Markers_embed_agrees hostname e) by (intros th; apply H; now left).
  rewrite IH; [reflexivity|]. intros e' th Hin. apply H. now right.
Qed.

Lemma Markers_anyAttachment atts :
  Markers.anyAttachment hostname atts = Preview.anyAttachment hostname atts.
Proof. reflexivity. Qed.

Lemma Markers_valid_Preview m :
  Markers.hasValidTwitterPreview hostname m = true ->
  Preview.hasValidTwitterPreview hostname m = true.
Proof.
  unfold Markers.hasValidTwitterPreview, Preview.hasValidTwitterPreview.
  rewrite Markers_anyAttachment.
  destruct (Markers.anyEmbed hostname (Message_Embeds m)) eqn:E.
  - now rewrite (Markers_anyEmbed_Preview _ E).
  - destruct (Preview.anyAttachment hostname (Message_Attachments m));
      [now destruct (Preview.anyEmbed hostname (Message_Embeds m)) | discriminate].
Qed.

Lemma Preview_incl_Markers self m :
  incl (sends (Preview.messageCreate hostname sendFails self m))
       (sends (Markers.messageCreate hostname sendFails self m)).
Proof.
  rewrite Preview_sends, Markers_sends.
  destruct (eqs (User_ID (Message_Author m)) self); [apply incl_refl|].
  destruct (eqs (Message_Content m) (str "hello")); [apply incl_refl|].
  destruct (containsTwitterLink (Message_Content m)); [|apply incl_nil_l].
  destruct (Preview.hasValidTwitterPreview hostname m) eqn:E; [apply incl_nil_l|].
  destruct (Markers.hasValidTwitterPreview hostname m) eqn:E'; [|apply incl_refl].
  apply Markers_valid_Preview in E'. congruence.
Qed.

Lemma Markers_incl_Ungated self m :
  incl (sends (Markers.messageCreate hostname sendFails self m))
       (sends (Ungated.messageCreate sendFails modifyTwitterLinks self m)).
Proof.
  rewrite Markers_sends, Ungated_sends.
  destruct (eqs (User_ID (Message_Author m)) self); [apply incl_refl|].
  destruct (eqs (Message_Content m) (str "hello")); [now apply incl_appl, incl_refl|].
  cbn [app].
  destruct (containsTwitterLink (Message_Content m)); [|apply incl_nil_l].
  destruct (Markers.hasValidTwitterPreview hostname m); [apply incl_nil_l|].
  cbn [negb andb].
  destruct (negb (eqs _ _)); apply incl_refl.
Qed.

Lemma Markers_sends_agree self m :
  (forall embed th, In embed (Message_Embeds m) -> Embed_Thumbnail embed = Some th ->
     strings.Contains (Thumbnail_URL th) (str "tweet_video_thumb") = false
     /\ strings.Contains (Thumbnail_URL th) (str "amplify_video_thumb") = false) ->
  sends (Markers.messageCreate hostname sendFails self m)
  = sends (Preview.messageCreate hostname sendFails self m).
Proof.
  intros H. rewrite Preview_sends, Markers_sends.
  unfold Markers.hasValidTwitterPreview, Preview.hasValidTwitterPreview.
  now rewrite Markers_anyAttachment, (Markers_anyEmbed_agrees _ H).
Qed.

End MarkersHandler.

(** X19.  The revision with the markers replies at least as often as the
    revision without them: whatever the handler without the markers sends
    for an event, the handler with the markers sends too, and what that one
    sends is in turn sent by the handler that rewrites every message. *)
Theorem markers_handler_sends_more
        (hostname : gostring -> option gostring)
        (sendFails : gostring -> gostring -> bool)
        (self : gostring) (m : MessageCreate) :
  incl (sends (Preview.messageCreate hostname sendFails self m))
       (sends (Markers.messageCreate hostname sendFails self m))
  /\ incl (sends (Markers.messageCreate hostname sendFails self m))
          (sends (Ungated.messageCreate sendFails modifyTwitterLinks self m)).
Proof.
  split; [apply Preview_incl_Markers | apply Markers_incl_Ungated].
Qed.

(** X20.  The two handlers with [hasValidTwitterPreview] send the same
    messages for every event in which no embed has a thumbnail URL with one
    of the two markers. *)
Theorem markers_handler_differs_only_on_markers
        (hostname : gostring -> option gostring)
        (sendFails : gostring -> gostring -> bool)
        (self : gostring) (m : MessageCreate) :
  (forall embed th, In embed (Message_Embeds m) -> Embed_Thumbnail embed = Some th ->
     strings.Contains (Thumbnail_URL th) (str "tweet_video_thumb") = false
     /\ strings.Contains (Thumbnail_URL th) (str "amplify_video_thumb") = false) ->
  sends (Markers.messageCreate hostname sendFails self m)
  = sends (Preview.messageCreate hostname sendFails self m).
Proof. exact (Markers_sends_agree hostname sendFails self m). Qed.

Lemma markers_handler_differs_only_on_markers_witness :
  let m := messageWith "alice" "https://twitter.com/user/status/123456"
             [embedWith "" None (Some "https://pbs.twimg.com/media/abc.jpg"%string)] [] in
  sends (Markers.messageCreate url.Hostname neverFails (str "bot") m)
  = sends (Preview.messageCreate url.Hostname neverFails (str "bot") m).
Proof.
  intros m.
  apply (markers_handler_differs_only_on_markers url.Hostname neverFails (str "bot") m).
  intros embed th [<-|[]] E. injection E as <-. split; reflexivity.
Defined.

(** ** The first revision and a handle that contains a domain *)

Section FirstRevisionHandle.

Lemma First_link_any pre p w d h id post :
  isHandle h -> isId id -> stops isDigit post ->
  First.modifyTwitterLinks (pre ++ statusLink p w d h id ++ post)
  = First.modifyTwitterLinks pre
    ++ firstReplace (statusLink p w d h id)
    ++ First.modifyTwitterLinks post.
Proof.
  intros Hh Hid Hpost.
  pose proof (scanLink_link p w d h id post Hh Hid Hpost) as E.
  unfold statusLink at 1. unfold linkPrefix. rewrite <- !app_assoc.
  destruct (blocked_scheme p
              (wwwStr w ++ domainStr d ++ str "/" ++ h ++ str "/status/" ++ id ++ post))
    as (Y & EY & Hb).
  rewrite EY, (First_app pre Y Hb), <- EY. f_equal.
  destruct (statusLink_cons p w d h id) as [m Hm].
  replace (schemeStr p ++ wwwStr w ++ domainStr d ++ str "/" ++ h ++ str "/status/" ++ id ++ post)
    with (statusLink p w d h id ++ post)
    by (unfold statusLink, linkPrefix; now rewrite <- !app_assoc).
  rewrite Hm in E |- *.
  now rewrite (First_step_match _ _ _ E).
Qed.

Lemma Index_hit s sub : strings.HasPrefix s sub = true -> strings.Index s sub = 0%Z.
Proof. intros H. destruct s; cbn [strings.Index]; now rewrite H. Qed.

Lemma Index_step c s sub n :
  strings.HasPrefix (c :: s) sub = false ->
  strings.Index s sub = Z.of_nat n ->
  strings.Index (c :: s) sub = Z.of_nat (S n).
Proof.
  intros H Hs. cbn [strings.Index]. rewrite H, Hs.
  destruct (Z.ltb_spec (Z.of_nat n) 0); lia.
Qed.

(** The first occurrence of [twitter.com] after a text without dot. *)
Lemma Index_after_no_dot a r :
  ~ In "."%char a ->
  strings.Index (a ++ str "twitter.com" ++ r) (str "twitter.com")
  = Z.of_nat (length a).
Proof.
  induction a as [|c a IH]; intros H.
  - cbn [app length]. apply Index_hit, HasPrefix_app.
  - cbn [app length]. apply Index_step; [|apply IH; intros Hin; apply H; now right].
    destruct (strings.HasPrefix (c :: a ++ str "twitter.com" ++ r) (str "twitter.com"))
      eqn:E; [|reflexivity].
    exfalso. apply HasPrefix_inv in E.
    remember (skipn (length (str "twitter.com"))
                    (c :: a ++ str "twitter.com" ++ r)) as R eqn:ER. clear ER.
    cbn [str list_ascii_of_string app] in E.
    apply (f_equal (@tl ascii)) in E; cbn [tl] in E.
    do 6 (destruct a as [|? a];
          [discriminate E
          | cbn [app] in E; apply (f_equal (@tl ascii)) in E; cbn [tl] in E]).
    destruct a as [|x a]; [discriminate E|].
    cbn [app] in E. injection E as Ex _. subst x.
    apply H. cbn. do 7 right. now left.
Qed.

Lemma firstn_app_exact (a b : gostring) : firstn (length a) (a ++ b) = a.
Proof. induction a as [|c a IH]; cbn; [reflexivity | now rewrite IH]. Qed.

Lemma firstReplace_handle p w h1 r :
  ~ In "."%char h1 ->
  firstReplace (linkPrefix p w X ++ h1 ++ str "twitter.com" ++ r)
  = linkPrefix p w X ++ h1 ++ str "fxtwitter.com" ++ r.
Proof.
  intros H.
  assert (E : strings.Index (linkPrefix p w X ++ h1 ++ str "twitter.com" ++ r)
                            (str "twitter.com")
              = Z.of_nat (length (linkPrefix p w X ++ h1))).
  { rewrite length_app.
    destruct p, w;
      cbn [linkPrefix schemeStr wwwStr domainStr str list_ascii_of_string app
           length Nat.add];
      repeat (apply Index_step; [reflexivity|]);
      exact (Index_after_no_dot h1 r H). }
  unfold firstReplace, strings.Contains. rewrite E.
  replace (0 <=? Z.of_nat (length (linkPrefix p w X ++ h1)))%Z with true
    by (symmetry; apply Z.leb_le; lia).
  cbn [strings.Replace]. rewrite E.
  replace (Z.of_nat (length (linkPrefix p w X ++ h1)) <? 0)%Z with false
    by (symmetry; apply Z.ltb_ge; lia).
  rewrite Nat2Z.id.
  rewrite (app_assoc (linkPrefix p w X) h1).
  rewrite firstn_app_exact.
  rewrite (app_assoc _ (str "twitter.com") r), <- length_app.
  rewrite skipn_app_exact. now rewrite <- !app_assoc.
Qed.

Lemma First_handle pre p w h1 h2 id post :
  ~ In "."%char h1 ->
  isHandle (h1 ++ str "twitter.com" ++ h2) -> isId id -> stops isDigit post ->
  First.modifyTwitterLinks
    (pre ++ statusLink p w X (h1 ++ str "twitter.com" ++ h2) id ++ post)
  = First.modifyTwitterLinks pre
    ++ statusLink p w X (h1 ++ str "fxtwitter.com" ++ h2) id
    ++ First.modifyTwitterLinks post.
Proof.
  intros H1 Hh Hid Hpost. rewrite First_link_any by assumption.
  f_equal. f_equal. unfold statusLink. rewrite <- !app_assoc.
  apply firstReplace_handle, H1.
Qed.

End FirstRevisionHandle.

(** X21.  In the first revision, a status link on [x.com] whose handle
    contains [twitter.com] is not moved to the mirror of [x.com]: the closure
    looks for [twitter.com] anywhere in the match before it looks for
    [x.com], so the domain stays and the first [twitter.com] of the handle
    becomes [fxtwitter.com]. *)
Theorem first_revision_rewrites_handle
        (pre : gostring) p w (h1 h2 id post : gostring) :
  ~ In "."%char h1 ->
  isHandle (h1 ++ str "twitter.com" ++ h2) -> isId id -> stops isDigit post ->
  First.modifyTwitterLinks
    (pre ++ statusLink p w X (h1 ++ str "twitter.com" ++ h2) id ++ post)
  = First.modifyTwitterLinks pre
    ++ statusLink p w X (h1 ++ str "fxtwitter.com" ++ h2) id
    ++ First.modifyTwitterLinks post.
Proof. exact (First_handle pre p w h1 h2 id post). Qed.

Lemma first_revision_rewrites_handle_witness :
  First.modifyTwitterLinks (str "see https://x.com/my_twitter.com/status/1")
  = str "see https://x.com/my_fxtwitter.com/status/1".
Proof.
  apply (first_revision_rewrites_handle (str "see ") Https false
           (str "my_") [] (str "1") []).
  - intros H. cbn in H. repeat (destruct H as [H|H]; [discriminate H|]). exact H.
  - split; [discriminate | repeat constructor].
  - split; [discriminate | repeat constructor].
  - exact I.
Defined.

(** ** The handlers without the gate *)

Lemma Ungated_reply sendFails (rewrite : gostring -> gostring) self m ch txt :
  rewrite (str "hello") = str "hello" ->
  In (ch, txt) (sends (Ungated.messageCreate sendFails rewrite self m)) ->
  sends (Ungated.messageCreate sendFails rewrite self m) = [(ch, txt)]
  /\ User_ID (Message_Author m) <> self
  /\ ch = Message_ChannelID m
  /\ txt <> Message_Content m
  /\ (txt = str "world!" /\ Message_Content m = str "hello"
      \/ txt = rewrite (Message_Content m)).
Proof.
  intros Hhello. rewrite Ungated_sends.
  destruct (eqs_spec (User_ID (Message_Author m)) self) as [|Hself]; [contradiction|].
  destruct (eqs_spec (Message_Content m) (str "hello")) as [Hc|Hc].
  - rewrite Hc, Hhello, eqs_refl. cbn [negb app].
    intros [E|[]]. injection E as <- <-.
    split; [reflexivity|]. split; [assumption|]. split; [reflexivity|].
    split; [discriminate|]. now left.
  - cbn [app].
    destruct (eqs_spec (rewrite (Message_Content m)) (Message_Content m))
      as [|Hd]; [contradiction|].
    cbn [negb]. intros [E|[]]. injection E as <- <-.
    split; [reflexivity|]. split; [assumption|]. split; [reflexivity|].
    split; [assumption|]. now right.
Qed.

(** X22.  The handlers that rewrite every message do not return after
    answering [hello], yet they send at most one message for an event: both
    revisions of the rewriter leave [hello] as it is.  Whatever they send
    goes to the channel of the event, the author is not the bot itself, and
    the text is [world!] for [hello] or else the rewritten content, which
    differs from the content. *)
Theorem ungated_handlers_reply_once
        (sendFails : gostring -> gostring -> bool)
        (rewrite : gostring -> gostring)
        (self : gostring) (m : MessageCreate) (ch txt : gostring) :
  rewrite = modifyTwitterLinks \/ rewrite = First.modifyTwitterLinks ->
  In (ch, txt) (sends (Ungated.messageCreate sendFails rewrite self m)) ->
  sends (Ungated.messageCreate sendFails rewrite self m) = [(ch, txt)]
  /\ User_ID (Message_Author m) <> self
  /\ ch = Message_ChannelID m
  /\ txt <> Message_Content m
  /\ (txt = str "world!" /\ Message_Content m = str "hello"
      \/ txt = rewrite (Message_Content m)).
Proof.
  intros Hr. apply Ungated_reply. destruct Hr as [-> | ->]; reflexivity.
Qed.

Lemma ungated_handlers_reply_once_witness :
  let m := messageWith "alice" "Look at https://x.com/user/status/789012" [] [] in
  sends (Ungated.messageCreate neverFails First.modifyTwitterLinks (str "bot") m)
  = [(str "general", str "Look at https://fixupx.com/user/status/789012")].
Proof.
  intros m.
  destruct (ungated_handlers_reply_once neverFails First.modifyTwitterLinks
              (str "bot") m (str "general")
              (str "Look at https://fixupx.com/user/status/789012"))
    as (H & _).
  - now right.
  - left. reflexivity.
  - exact H.
Defined.

(** ** What a match is, and how the rewriter composes *)

(** X23.  A match of the pattern of [modifyTwitterLinks] is an optional [<],
    a status link up to the first digit of its identifier, and then every
    character up to the next white space, [<] or the end of the text: the
    rest of the identifier, a query, any other text, a closing [>].  Every
    such piece of text is a match. *)
Theorem pattern_match_characterised (m rest : gostring) :
  matchAt modifyPattern (m ++ rest) = Some (m, rest)
  <-> exists (lt : bool) p w d h e t,
        m = (if lt then str "<" else []) ++ statusLink p w d h [e] ++ t
        /\ isHandle h /\ isDigit e = true
        /\ all (mem notLtSpace) t /\ stops (mem notLtSpace) rest.
Proof.
  split.
  - intros H. unfold matchAt in H. rewrite rmatch_modifyPattern in H.
    destruct (scanModify (m ++ rest)) as [r|] eqn:E; [|discriminate H].
    injection H as _ ->.
    apply scanModify_inv in E
      as (lt & p & w & d & c & h & e & t & E & Hh & He & Ht & Hr).
    exists lt, p, w, d, (c :: h), e, t.
    split; [|split; [split; [discriminate | exact Hh] | auto]].
    apply (app_inv_tail rest). rewrite E. now rewrite <- !app_assoc.
  - intros (lt & p & w & d & h & e & t & -> & [Hne Hh] & He & Ht & Hr).
    apply matchAt_modify_some.
    destruct h as [|c h]; [congruence|].
    rewrite <- !app_assoc.
    apply (scanModify_link lt p w d c h e [] t rest); auto.
    constructor; [exact He | constructor].
Qed.

Lemma blocked_after_space c b :
  isSpace c = true -> blocked b -> blocked (c :: b).
Proof.
  intros Hc Hb. unfold blocked in *. cbn [dropWhile].
  now rewrite (barrier_notSlash _ (space_barrier _ Hc)).
Qed.

(** X24.  White space separates the work of the rewriter, unless a handle
    runs across it: when the text after a white space character does not
    reach [/status/] at its first slash, the text before and the text after
    are rewritten independently and the white space is copied. *)
Theorem white_space_separates (a : gostring) (c : ascii) (b : gostring) :
  isSpace c = true -> blocked b ->
  modifyTwitterLinks (a ++ c :: b)
  = modifyTwitterLinks a ++ c :: modifyTwitterLinks b.
Proof.
  intros Hc Hb. rewrite modify_app.
  - now rewrite (modify_step_none c) by now apply scanModify_space.
  - exact (space_barrier _ Hc).
  - now apply blocked_after_space.
Qed.

Lemma white_space_separates_witness :
  modifyTwitterLinks (str "https://x.com/a/status/1 <https://x.com/b/status/2>")
  = modifyTwitterLinks (str "https://x.com/a/status/1")
    ++ " "%char :: modifyTwitterLinks (str "<https://x.com/b/status/2>").
Proof.
  apply (white_space_separates (str "https://x.com/a/status/1") " "%char
           (str "<https://x.com/b/status/2>")).
  - reflexivity.
  - reflexivity.
Defined.

(** ** The handler and the rewriter together *)

Section EndToEnd.

Variable hostname : gostring -> option gostring.
Variable sendFails : gostring -> gostring -> bool.

Lemma wordChar_noQuestion h : all (mem wordChar) h -> noQuestion h.
Proof.
  intros H Hin. pose proof (all_In _ _ _ H Hin) as Hc. discriminate Hc.
Qed.

Lemma afterLink_stops post : afterLink post -> stops (mem notLtSpace) post.
Proof.
  intros [->|(c & Z' & -> & Hc)]; [exact I | exact (space_barrier _ Hc)].
Qed.



Lemma Main_first_link self m pre p w d h id post :
  User_ID (Message_Author m) <> self ->
  Main.hasValidTwitterEmbed hostname (Message_Embeds m) = false ->
  Message_Content m = pre ++ statusLink p w d h id ++ post ->
  ~ containsStatusLink pre -> linkStart pre ->
  h <> [] -> all (mem wordChar) h -> isId id -> afterLink post ->
  sends (Main.messageCreate hostname sendFails self m)
  = [(Message_ChannelID m, pre ++ rewrittenLink d h id ++ modifyTwitterLinks post)].
Proof.
  intros Hself Hvalid E Hpre Hstart Hne Hw Hid Hpost. rewrite Main_sends.
  destruct (eqs_spec (User_ID (Message_Author m)) self); [contradiction|].
  assert (Hh : isHandle h).
  { split; [exact Hne|]. eapply all_impl; [apply wordChar_notSlash | exact Hw]. }
  destruct (eqs_spec (Message_Content m) (str "hello")) as [Ec|_].
  { exfalso. apply (containsStatusLink_not_hello (Message_Content m)); [|exact Ec].
    exists pre, p, w, d, h, id, post. auto. }
  assert (Hgate : containsTwitterLink (Message_Content m) = true).
  { apply gate_accepts. exists pre, p, w, d, h, id, post. auto. }
  assert (Hmod : modifyTwitterLinks (Message_Content m)
                 = pre ++ rewrittenLink d h id ++ modifyTwitterLinks post).
  { rewrite E.
    pose proof (modify_link_in_context pre p w d h id [] [] post) as H.
    cbn [app] in H. rewrite H; auto using wordChar_noQuestion, afterLink_stops.
    - now rewrite (modify_without_link pre).
    - constructor.
    - intros [].
    - now left. }
  rewrite Hgate, Hvalid, Hmod. cbn [negb andb].
  destruct (eqs_spec (pre ++ rewrittenLink d h id ++ modifyTwitterLinks post)
                     (Message_Content m)) as [Eq|_]; [|reflexivity].
  exfalso. rewrite E in Eq. apply app_inv_head in Eq.
  now apply rewritten_differs in Eq.
Qed.

End EndToEnd.



(** X26.  The reply the bot exists for: a message from another user with no
    embed counted by [hasValidTwitterEmbed], whose first status link starts
    the text or follows white space, has a handle of letters, digits and
    underscores and is followed by white space or the end of the text, gets
    exactly one reply, in the channel of the message: the content with that
    link moved to the mirror domain and the rest of the text rewritten. *)
Theorem first_link_gets_rewritten_reply
        (hostname : gostring -> option gostring)
        (sendFails : gostring -> gostring -> bool)
        (self : gostring) (m : MessageCreate)
        (pre : gostring) p w d (h id post : gostring) :
  User_ID (Message_Author m) <> self ->
  Main.hasValidTwitterEmbed hostname (Message_Embeds m) = false ->
  Message_Content m = pre ++ statusLink p w d h id ++ post ->
  ~ containsStatusLink pre -> linkStart pre ->
  h <> [] -> all (mem wordChar) h -> isId id -> afterLink post ->
  sends (Main.messageCreate hostname sendFails self m)
  = [(Message_ChannelID m, pre ++ rewrittenLink d h id ++ modifyTwitterLinks post)].
Proof. exact (Main_first_link hostname sendFails self m pre p w d h id post). Qed.

Lemma first_link_gets_rewritten_reply_witness :
  sends (Main.messageCreate url.Hostname neverFails (str "bot")
           (messageWith "alice" "http://www.twitter.com/user_1/status/123" [] []))
  = [(str "general", str "https://fxtwitter.com/user_1/status/123")].
Proof.
  apply (first_link_gets_rewritten_reply url.Hostname neverFails (str "bot")
           (messageWith "alice" "http://www.twitter.com/user_1/status/123" [] [])
           [] Http true Twitter (str "user_1") (str "123") []).
  - discriminate.
  - reflexivity.
  - reflexivity.
  - intros (a & p & w & d & h & id & b & E & _).
    destruct a; destruct p; discriminate E.
  - now left.
  - discriminate.
  - repeat constructor.
  - split; [discriminate | repeat constructor].
  - now left.
Defined.

(** ** The first revision and [main.go] side by side *)

Lemma First_without_link text :
  ~ containsStatusLink text -> First.modifyTwitterLinks text = text.
Proof.
  intros H. rewrite First_unfold. apply replace_no_match.
  intros a b ->. apply matchAt_link_none.
  destruct (scanLink b) as [r|] eqn:E; [|reflexivity]. exfalso. apply H.
  apply scanLink_inv in E as (p & w & d & h & id & -> & Hh & Hid & _).
  exists a, p, w, d, h, id, r. auto.
Qed.


(** X27.  The first revision of [modifyTwitterLinks] returns a text without
    status link unchanged. *)
Theorem first_revision_identity_without_link (text : gostring) :
  ~ containsStatusLink text -> First.modifyTwitterLinks text = text.
Proof. exact (First_without_link text). Qed.

Lemma first_revision_identity_without_link_witness :
  First.modifyTwitterLinks (str "Just a regular message") = str "Just a regular message".
Proof.
  apply (first_revision_identity_without_link (str "Just a regular message")).
  intros (a & p & w & d & h & id & b & E & _).
  unfold statusLink, linkPrefix in E. rewrite <- !app_assoc in E.
  cbn [str list_ascii_of_string] in E.
  do 23 (destruct a as [|? a];
         [ destruct p; discriminate E
         | cbn [app] in E; first [ discriminate E | injection E as _ E ] ]).
Defined.


